(** * Contact-management hash table (src/hash_table.py)

    A shallow embedding of the classes [Contact], [Node] and [HashTable]
    and of the four methods of [HashTable], followed by the properties
    established about them.

    Modelling conventions.
    - Python [int] is [Z]; [%] is floor modulo (as [Z.modulo]) and raises
      [ZeroDivisionError] on a zero divisor.
    - Python [str] is [string]; a character is its code point ([ord]),
      so keys range over the code points 0..255.
    - [self.data] is a [list] of references, each either [None] or a
      [Node]; subscripting follows Python: a negative index counts from
      the end, anything outside the list raises [IndexError].
    - List repetition [[None] * n] converts [n] to an index-sized
      integer (64 bits): a count below [PY_SSIZE_T_MIN] raises
      [OverflowError], any other count [<= 0] gives the empty list.  A
      list of [n > 0] items is taken to exist whatever [n] is: what the
      interpreter cannot allocate is not modelled.
    - A method is a computation of type [M A]: from the table before the
      call to the outcome ([Ok] value or [Raise]d exception) and the
      table after the call.  An exception leaves the table as it was at
      the point of the raise.
    - [print_table] returns the lines it prints. *)

From Stdlib Require Import ZArith List String Ascii DecimalString Lia.
From stdpp Require Import base list strings.

Local Open Scope Z_scope.
Local Set Warnings "-register-all".

(** ** Outcomes and exceptions *)

Inductive exn : Type :=
| ZeroDivisionError
| IndexError
| OverflowError.

Inductive outcome (A : Type) : Type :=
| Ok (a : A)
| Raise (e : exn).

Arguments Ok {A} a.
Arguments Raise {A} e.

Definition raised {A : Type} (o : outcome A) : Prop :=
  match o with
  | Ok _ => False
  | Raise _ => True
  end.

(** ** class Contact *)

Record Contact : Type := mkContact { name : string; number : string }.

(** [Contact.__str__] *)
Definition Contact_str (c : Contact) : string :=
  (name c ++ ": " ++ number c)%string.

(** ** class Node *)

Inductive Node : Type :=
  mkNode { key : string; value : Contact; next : option Node }.

(** [Node(key, value)]: the constructor sets [next] to [None]. *)
Definition Node_init (k : string) (v : Contact) : Node := mkNode k v None.

(** ** class HashTable *)

Record HashTable : Type := mkHashTable { size : Z; data : list (option Node) }.

(** The least index-sized integer, -2^63. *)
Definition PY_SSIZE_T_MIN : Z := -9223372036854775808.

(** [[None] * n] *)
Definition list_repeat_None (n : Z) : outcome (list (option Node)) :=
  if n <? PY_SSIZE_T_MIN then Raise OverflowError
  else Ok (replicate (Z.to_nat n) None).

(** [HashTable.__init__]: the only statement that can raise is the list
    repetition; [self.size] takes the argument as it is. *)
Definition HashTable_init (sz : Z) : outcome HashTable :=
  match list_repeat_None sz with
  | Ok d => Ok {| size := sz; data := d |}
  | Raise e => Raise e
  end.

(** *** The method monad *)

Definition M (A : Type) : Type := HashTable -> outcome A * HashTable.

Definition ret {A : Type} (a : A) : M A := fun self => (Ok a, self).

Definition raise {A : Type} (e : exn) : M A := fun self => (Raise e, self).

Definition bind {A B : Type} (m : M A) (k : A -> M B) : M B :=
  fun self =>
    match m self with
    | (Ok a, self') => k a self'
    | (Raise e, self') => (Raise e, self')
    end.

Notation "x <- m ;; k" := (bind m (fun x => k))
  (at level 100, m at next level, right associativity).

Definition get_size : M Z := fun self => (Ok (size self), self).

Definition get_data : M (list (option Node)) :=
  fun self => (Ok (data self), self).

Definition set_data (d : list (option Node)) : M unit :=
  fun self => (Ok tt, {| size := size self; data := d |}).

(** *** Python primitives *)

(** [a % b] *)
Definition py_mod (a b : Z) : M Z :=
  if b =? 0 then raise ZeroDivisionError else ret (a mod b).

(** Position of index [i] in a list of length [n], as list subscripting
    resolves it. *)
Definition resolve_index (n : nat) (i : Z) : option nat :=
  let j := if i <? 0 then i + Z.of_nat n else i in
  if (0 <=? j) && (j <? Z.of_nat n) then Some (Z.to_nat j) else None.

(** [self.data[i]] *)
Definition getitem (i : Z) : M (option Node) :=
  d <- get_data ;;
  match resolve_index (length d) i with
  | Some j =>
      match d !! j with
      | Some ref => ret ref
      | None => raise IndexError
      end
  | None => raise IndexError
  end.

(** [self.data[i] = ref] *)
Definition setitem (i : Z) (ref : option Node) : M unit :=
  d <- get_data ;;
  match resolve_index (length d) i with
  | Some j => set_data (<[j := ref]> d)
  | None => raise IndexError
  end.

(** [ord(char)] *)
Definition ord (char : ascii) : Z := Z.of_N (N_of_ascii char).

(** [range(n)] *)
Definition range (n : Z) : list Z := Z.of_nat <$> seq 0 (Z.to_nat n).

(** [str(i)] for an integer, as an f-string formats it. *)
Definition str_int (i : Z) : string := NilZero.string_of_int (Z.to_int i).

(** [c.isspace()] on the code points 0..255. *)
Definition isspace (c : ascii) : bool :=
  let n := N_of_ascii c in
  (((9 <=? n) && (n <=? 13)) || ((28 <=? n) && (n <=? 32))
   || (n =? 133) || (n =? 160))%N.

Fixpoint lstrip (s : string) : string :=
  match s with
  | EmptyString => EmptyString
  | String c s' => if isspace c then lstrip s' else s
  end.

Fixpoint rstrip (s : string) : string :=
  match s with
  | EmptyString => EmptyString
  | String c s' =>
      match rstrip s' with
      | EmptyString => if isspace c then EmptyString else String c EmptyString
      | r => String c r
      end
  end.

(** [s.strip()] *)
Definition strip (s : string) : string := rstrip (lstrip s).

(** *** hash_function *)

(** The loop [for char in key: hash_value += ord(char)], from the
    accumulator's initial value. *)
Definition hash_loop (key : string) (hash_value : Z) : Z :=
  fold_left (fun h char => h + ord char) (list_ascii_of_string key) hash_value.

Definition hash_function (key : string) : M Z :=
  let hash_value := hash_loop key 0 in
  sz <- get_size ;;
  py_mod hash_value sz.

(** *** insert *)

(** The [while] loop of the collision branch, entered with [current]
    a node.  The result is the chain as the loop and the statement after
    it leave it: either the matching node's contact has its number
    overwritten, or [Node(key, contact)] hangs off the last node. *)
Fixpoint insert_loop (k num : string) (contact : Contact) (current : Node)
  : Node :=
  match current with
  | mkNode ck cv cnext =>
      if String.eqb ck k then
        mkNode ck {| name := name cv; number := num |} cnext
      else
        match cnext with
        | None => mkNode ck cv (Some (Node_init k contact))
        | Some nxt => mkNode ck cv (Some (insert_loop k num contact nxt))
        end
  end.

(** In the collision branch the nodes are mutated in place and
    [self.data[index]] keeps referring to the head: the updated chain is
    stored back at the same index. *)
Definition insert (k num : string) : M unit :=
  index <- hash_function k ;;
  let contact := mkContact k num in
  head <- getitem index ;;
  match head with
  | None => setitem index (Some (Node_init k contact))
  | Some current => setitem index (Some (insert_loop k num contact current))
  end.

(** *** search *)

(** The [while] loop of [search] from a node; the test
    [current is not None] is the match on the next reference. *)
Fixpoint search_loop (k : string) (current : Node) : option Contact :=
  match current with
  | mkNode ck cv cnext =>
      if String.eqb ck k then Some cv
      else
        match cnext with
        | None => None
        | Some nxt => search_loop k nxt
        end
  end.

Definition search (k : string) : M (option Contact) :=
  index <- hash_function k ;;
  current <- getitem index ;;
  match current with
  | None => ret None
  | Some n => ret (search_loop k n)
  end.

(** *** print_table *)

(** The inner [while] loop: [chain += f"- {current.value} "]. *)
Fixpoint chain_loop (current : Node) (chain : string) : string :=
  match current with
  | mkNode _ cv cnext =>
      let chain' := (chain ++ "- " ++ Contact_str cv ++ " ")%string in
      match cnext with
      | None => chain'
      | Some nxt => chain_loop nxt chain'
      end
  end.

(** One iteration of the [for] loop: the line printed for index [i]. *)
Definition print_bucket (i : Z) : M string :=
  current <- getitem i ;;
  match current with
  | None => ret ("Index " ++ str_int i ++ ": Empty")%string
  | Some n =>
      ret ("Index " ++ str_int i ++ ": " ++ strip (chain_loop n ""))%string
  end.

Fixpoint for_each {A : Type} (body : Z -> M A) (indices : list Z)
  : M (list A) :=
  match indices with
  | [] => ret []
  | i :: rest =>
      x <- body i ;;
      xs <- for_each body rest ;;
      ret (x :: xs)
  end.

Definition print_table : M (list string) :=
  sz <- get_size ;;
  for_each print_bucket (range sz).

(** ** Tables a program can hold *)

(** [built ks t]: [t] is the table after constructing a [HashTable] and
    calling its methods some number of times, [ks] being the keys of the
    [insert] calls made so far, oldest first. *)
Inductive built : list string -> HashTable -> Prop :=
| built_init sz t :
    HashTable_init sz = Ok t -> built [] t
| built_insert ks t k num :
    built ks t -> built (ks ++ [k]) (insert k num t).2
| built_hash_function ks t k :
    built ks t -> built ks (hash_function k t).2
| built_search ks t k :
    built ks t -> built ks (search k t).2
| built_print_table ks t :
    built ks t -> built ks (print_table t).2.

Definition reachable (t : HashTable) : Prop := exists ks, built ks t.

(** ** Chains as sequences of entries *)

(** The entries [(key, value)] from a node to the tail of its chain. *)
Fixpoint nodes (n : Node) : list (string * Contact) :=
  match n with
  | mkNode k v nx =>
      (k, v) :: match nx with
                | None => []
                | Some m => nodes m
                end
  end.

(** The entries reachable from a bucket's reference, head first. *)
Definition chain (ref : option Node) : list (string * Contact) :=
  match ref with
  | None => []
  | Some n => nodes n
  end.

Definition chain_keys (ref : option Node) : list string := (chain ref).*1.

(** The bucket at position [i] ([None] outside the array). *)
Definition bucket (t : HashTable) (i : nat) : option Node :=
  default None (data t !! i).

(** Every key stored in the table, bucket by bucket, head to tail. *)
Definition table_keys (t : HashTable) : list string :=
  concat (chain_keys <$> data t).

(** Number of entries of the whole table whose key is [k]. *)
Definition count_key (k : string) (t : HashTable) : nat :=
  length (filter (eq k) (table_keys t)).

(** The value [hash_function] computes for capacity [sz]. *)
Definition hash_of (sz : Z) (k : string) : Z := hash_loop k 0 mod sz.

(** The sum of the code points of a string, character by character. *)
Fixpoint code_point_sum (s : string) : Z :=
  match s with
  | EmptyString => 0
  | String c s' => ord c + code_point_sum s'
  end.

(** The first entry of a chain whose key is [k], if any. *)
Definition first_match (k : string) (l : list (string * Contact))
  : option Contact :=
  (fun hit => hit.2.2) <$> list_find (fun e => e.1 = k) l.

(** List view of [insert_loop]: overwrite the number of the first entry
    with key [k], or append a new entry at the end. *)
Fixpoint upsert (k num : string) (l : list (string * Contact))
  : list (string * Contact) :=
  match l with
  | [] => [(k, mkContact k num)]
  | (ck, cv) :: r =>
      if String.eqb ck k then (ck, {| name := name cv; number := num |}) :: r
      else (ck, cv) :: upsert k num r
  end.

(** The keys of a sequence of calls in the order they were first seen. *)
Definition first_seen (ks : list string) : list string :=
  fold_left (fun acc k => if decide (k ∈ acc) then acc else acc ++ [k]) ks [].

(** The text [print_table] shows for a bucket holding the contacts [cs]. *)
Definition render_chain (cs : list Contact) : string :=
  strip (fold_left (fun chain c => chain ++ "- " ++ Contact_str c ++ " ")%string
           cs EmptyString).

Definition render_line (i : Z) (cs : list Contact) : string :=
  match cs with
  | [] => ("Index " ++ str_int i ++ ": Empty")%string
  | _ => ("Index " ++ str_int i ++ ": " ++ render_chain cs)%string
  end.

(** The chain [insert] leaves at its bucket, from the head it found. *)
Definition inserted_chain (k num : string) (head : option Node) : Node :=
  match head with
  | None => Node_init k (mkContact k num)
  | Some current => insert_loop k num (mkContact k num) current
  end.

(** The bucket array has as many slots as the capacity says. *)
Definition sized (t : HashTable) : Prop :=
  Z.of_nat (length (data t)) = Z.max 0 (size t).

(** The position [hash_function] sends a key to. *)
Definition slot (t : HashTable) (k : string) : nat :=
  Z.to_nat (hash_of (size t) k).

(** The keys of the [insert] calls that [hash_function] sends to
    position [i]. *)
Definition keys_hashed_to (t : HashTable) (i : nat) (ks : list string)
  : list string :=
  filter (fun k => slot t k = i) ks.

(** ** The table invariant *)

Record table_inv (t : HashTable) : Prop := mk_table_inv {
  inv_sized : sized t;
  inv_hash : forall i k,
    k ∈ chain_keys (bucket t i) -> hash_of (size t) k = Z.of_nat i;
  inv_uniq : forall i, NoDup (chain_keys (bucket t i));
  inv_names : forall i, Forall (fun e => name e.2 = e.1) (chain (bucket t i))
}.

(** ** A sample table *)

Definition fresh10 : HashTable :=
  {| size := 10; data := replicate 10 None |}.

(** The table of the demonstration script after its five [insert]
    calls on [HashTable(10)]. *)
Definition sample : HashTable :=
  let t1 := (insert "John" "909-876-1234" fresh10).2 in
  let t2 := (insert "Rebecca" "111-555-0002" t1).2 in
  let t3 := (insert "Amy" "111-222-3333" t2).2 in
  let t4 := (insert "May" "222-333-1111" t3).2 in
  (insert "Rebecca" "999-444-9999" t4).2.

(** The chain at index 5 of [sample]. *)
Definition sample_bucket5 : option Node :=
  Some (mkNode "Amy" (mkContact "Amy" "111-222-3333")
          (Some (mkNode "May" (mkContact "May" "222-333-1111") None))).

Definition sample_keys : list string :=
  ["John"; "Rebecca"; "Amy"; "May"; "Rebecca"]%string.

(** ** Sequences of insert calls *)

(** The table after the calls [insert(k, num)] for the pairs of [ops],
    in order, whatever each call's outcome. *)
Definition insert_each (ops : list (string * string)) (t : HashTable)
  : HashTable :=
  fold_left (fun t' op => (insert op.1 op.2 t').2) ops t.

(** The number given by the last pair of [ops] whose key is [k]. *)
Definition last_number (k : string) (ops : list (string * string))
  : option string :=
  fold_left (fun acc op => if String.eqb op.1 k then Some op.2 else acc)
    ops None.

(** [sep.join(l)] *)
Fixpoint join (sep : string) (l : list string) : string :=
  match l with
  | [] => EmptyString
  | [x] => x
  | x :: rest => (x ++ sep ++ join sep rest)%string
  end.

(** A string that is not empty and has no trailing whitespace. *)
Definition tidy (s : string) : Prop := s <> EmptyString /\ rstrip s = s.

(** The text of one entry of a rendered chain. *)
Definition entry_text (c : Contact) : string := ("- " ++ Contact_str c)%string.

(** The line for index [i] of a bucket holding the contacts [cs], with
    the entries separated by single spaces. *)
Definition chain_line (i : Z) (cs : list Contact) : string :=
  ("Index " ++ str_int i ++ ": " ++ join " " (entry_text <$> cs))%string.

(** [made_with sz t]: [t] is the table after the call [HashTable(sz)]
    and some number of calls of its methods. *)
Inductive made_with (sz : Z) : HashTable -> Prop :=
| made_init t :
    HashTable_init sz = Ok t -> made_with sz t
| made_insert t k num :
    made_with sz t -> made_with sz (insert k num t).2
| made_hash_function t k :
    made_with sz t -> made_with sz (hash_function k t).2
| made_search t k :
    made_with sz t -> made_with sz (search k t).2
| made_print_table t :
    made_with sz t -> made_with sz (print_table t).2.

(** ** Induction along a chain *)

Section NodeInduction.

Variable P : Node -> Prop.
Hypothesis P_last : forall k v, P (mkNode k v None).
Hypothesis P_link : forall k v n, P n -> P (mkNode k v (Some n)).

Fixpoint Node_chain_ind (n : Node) : P n :=
  match n with
  | mkNode k v None => P_last k v
  | mkNode k v (Some m) => P_link k v m (Node_chain_ind m)
  end.

End NodeInduction.

(** ** Running the primitives *)

Ltac unfold_M :=
  unfold bind, ret, raise, get_size, get_data, set_data, py_mod in *.

Lemma HashTable_init_ok (sz : Z) :
  PY_SSIZE_T_MIN <= sz ->
  HashTable_init sz =
    Ok {| size := sz; data := replicate (Z.to_nat sz) None |}.
Proof.
  intros Hsz. unfold HashTable_init, list_repeat_None.
  destruct (Z.ltb_spec sz PY_SSIZE_T_MIN); [lia | reflexivity].
Qed.

Lemma HashTable_init_overflow (sz : Z) :
  sz < PY_SSIZE_T_MIN -> HashTable_init sz = Raise OverflowError.
Proof.
  intros Hsz. unfold HashTable_init, list_repeat_None.
  destruct (Z.ltb_spec sz PY_SSIZE_T_MIN); [reflexivity | lia].
Qed.

Lemma HashTable_init_inv (sz : Z) (t : HashTable) :
  HashTable_init sz = Ok t ->
  t = {| size := sz; data := replicate (Z.to_nat sz) None |}.
Proof.
  unfold HashTable_init, list_repeat_None.
  destruct (sz <? PY_SSIZE_T_MIN); [discriminate|].
  intros [= <-]. reflexivity.
Qed.

Lemma resolve_index_in_range (n : nat) (i : Z) :
  0 <= i < Z.of_nat n -> resolve_index n i = Some (Z.to_nat i).
Proof.
  intros Hi. unfold resolve_index.
  destruct (Z.ltb_spec i 0); [lia|].
  destruct (Z.leb_spec 0 i); [|lia].
  destruct (Z.ltb_spec i (Z.of_nat n)); [|lia].
  reflexivity.
Qed.

Lemma resolve_index_nonneg (n : nat) (i : Z) (j : nat) :
  0 <= i -> resolve_index n i = Some j -> j = Z.to_nat i.
Proof.
  unfold resolve_index. intros Hi.
  destruct (Z.ltb_spec i 0); [lia|].
  destruct ((0 <=? i) && (i <? Z.of_nat n)); intros [= <-]; reflexivity.
Qed.

Lemma resolve_index_empty (i : Z) : resolve_index 0 i = None.
Proof.
  unfold resolve_index.
  destruct (Z.ltb_spec i 0);
    match goal with
    | |- context [(0 <=? ?x) && (?x <? ?y)] =>
        destruct (Z.leb_spec 0 x); destruct (Z.ltb_spec x y)
    end; simpl in *; try reflexivity; lia.
Qed.

Lemma hash_loop_sum (k : string) (acc : Z) :
  hash_loop k acc = acc + code_point_sum k.
Proof.
  unfold hash_loop. revert acc.
  induction k as [|c k IH]; intros acc; simpl.
  - lia.
  - rewrite IH. lia.
Qed.

Lemma ord_nonneg (c : ascii) : 0 <= ord c.
Proof. unfold ord. lia. Qed.

Lemma code_point_sum_nonneg (k : string) : 0 <= code_point_sum k.
Proof.
  induction k as [|c k IH]; simpl; [lia|].
  pose proof (ord_nonneg c). lia.
Qed.

Lemma hash_of_sum (sz : Z) (k : string) :
  hash_of sz k = code_point_sum k mod sz.
Proof. unfold hash_of. rewrite hash_loop_sum. reflexivity. Qed.

Lemma hash_of_range (sz : Z) (k : string) : 0 < sz -> 0 <= hash_of sz k < sz.
Proof. intros Hsz. unfold hash_of. apply Z.mod_pos_bound. exact Hsz. Qed.

Lemma hash_function_run (k : string) (t : HashTable) :
  hash_function k t =
    if size t =? 0 then (Raise ZeroDivisionError, t)
    else (Ok (hash_of (size t) k), t).
Proof.
  unfold hash_function, hash_of. unfold_M.
  destruct (size t =? 0); reflexivity.
Qed.

Lemma hash_function_ok (k : string) (t : HashTable) :
  size t <> 0 -> hash_function k t = (Ok (hash_of (size t) k), t).
Proof.
  intros Hsz. rewrite hash_function_run.
  destruct (Z.eqb_spec (size t) 0); [contradiction | reflexivity].
Qed.

Lemma getitem_in_range (i : Z) (t : HashTable) :
  0 <= i < Z.of_nat (length (data t)) ->
  getitem i t = (Ok (bucket t (Z.to_nat i)), t).
Proof.
  intros Hi. unfold getitem, bucket. unfold_M.
  rewrite (resolve_index_in_range _ _ Hi).
  destruct (lookup_lt_is_Some_2 (data t) (Z.to_nat i)) as [ref Href]; [lia|].
  rewrite Href. reflexivity.
Qed.

Lemma getitem_state (i : Z) (t : HashTable) : (getitem i t).2 = t.
Proof.
  unfold getitem. unfold_M.
  destruct (resolve_index _ _) as [j|]; [|reflexivity].
  destruct (data t !! j); reflexivity.
Qed.

Lemma getitem_empty (i : Z) (t : HashTable) :
  data t = [] -> getitem i t = (Raise IndexError, t).
Proof.
  intros Hd. unfold getitem. unfold_M. rewrite Hd. simpl.
  rewrite resolve_index_empty. reflexivity.
Qed.

(** ** Methods that only read *)

Lemma hash_function_state (k : string) (t : HashTable) :
  (hash_function k t).2 = t.
Proof. rewrite hash_function_run. destruct (size t =? 0); reflexivity. Qed.

Lemma search_state (k : string) (t : HashTable) : (search k t).2 = t.
Proof.
  unfold search, bind.
  pose proof (hash_function_state k t) as Hh.
  destruct (hash_function k t) as [[index|e] t1]; simpl in Hh; subst t1;
    [|reflexivity].
  pose proof (getitem_state index t) as Hg.
  destruct (getitem index t) as [[[n|]|e] t1]; simpl in Hg; subst t1;
    reflexivity.
Qed.

Lemma print_bucket_state (i : Z) (t : HashTable) : (print_bucket i t).2 = t.
Proof.
  unfold print_bucket, bind.
  pose proof (getitem_state i t) as Hg.
  destruct (getitem i t) as [[[n|]|e] t1]; simpl in Hg; subst t1;
    reflexivity.
Qed.

Lemma for_each_state {A : Type} (body : Z -> M A) (indices : list Z)
    (t : HashTable) :
  (forall i t', (body i t').2 = t') -> (for_each body indices t).2 = t.
Proof.
  intros Hbody. induction indices as [|i rest IH]; simpl; [reflexivity|].
  unfold bind. pose proof (Hbody i t) as Hb.
  destruct (body i t) as [[x|e] t1]; simpl in Hb; subst t1; [|reflexivity].
  destruct (for_each body rest t) as [[xs|e] t1]; simpl in IH; subst t1;
    reflexivity.
Qed.

Lemma print_table_state (t : HashTable) : (print_table t).2 = t.
Proof.
  unfold print_table, bind, get_size.
  apply for_each_state. intros i t'. apply print_bucket_state.
Qed.

(** ** The loops, on the sequence of entries *)

Lemma nodes_insert_loop (k num : string) (n : Node) :
  nodes (insert_loop k num (mkContact k num) n) = upsert k num (nodes n).
Proof.
  induction n as [ck cv|ck cv m IH] using Node_chain_ind; simpl.
  - destruct (String.eqb ck k); reflexivity.
  - destruct (String.eqb ck k); simpl; [reflexivity|].
    f_equal. exact IH.
Qed.

Lemma first_match_nil (k : string) : first_match k [] = None.
Proof. reflexivity. Qed.

Lemma first_match_cons (k ck : string) (cv : Contact)
    (r : list (string * Contact)) :
  first_match k ((ck, cv) :: r) =
    if String.eqb ck k then Some cv else first_match k r.
Proof.
  unfold first_match. simpl.
  destruct (String.eqb_spec ck k) as [Heq|Hne].
  - rewrite decide_True by exact Heq. reflexivity.
  - rewrite decide_False by exact Hne.
    destruct (list_find _ r) as [[j e]|]; reflexivity.
Qed.

Lemma search_loop_first_match (k : string) (n : Node) :
  search_loop k n = first_match k (nodes n).
Proof.
  induction n as [ck cv|ck cv m IH] using Node_chain_ind;
    simpl; rewrite first_match_cons; destruct (String.eqb ck k);
    try reflexivity.
  exact IH.
Qed.

Lemma chain_loop_fold (n : Node) (acc : string) :
  chain_loop n acc =
    fold_left (fun chain c => chain ++ "- " ++ Contact_str c ++ " ")%string
      (nodes n).*2 acc.
Proof.
  revert acc.
  induction n as [ck cv|ck cv m IH] using Node_chain_ind; intros acc; simpl.
  - reflexivity.
  - apply IH.
Qed.

Lemma first_match_None (k : string) (l : list (string * Contact)) :
  first_match k l = None <-> k ∉ l.*1.
Proof.
  induction l as [|[ck cv] r IH].
  - rewrite first_match_nil. split; [intros _|reflexivity].
    simpl. apply not_elem_of_nil.
  - rewrite first_match_cons. simpl. rewrite not_elem_of_cons.
    destruct (String.eqb_spec ck k) as [Heq|Hne].
    + split; [discriminate|]. intros [Hk _]. congruence.
    + rewrite IH. split; [intros Hr; split; [congruence|exact Hr]|].
      intros [_ Hr]. exact Hr.
Qed.

Lemma upsert_fresh (k num : string) (l : list (string * Contact)) :
  k ∉ l.*1 -> upsert k num l = l ++ [(k, mkContact k num)].
Proof.
  induction l as [|[ck cv] r IH]; simpl; [reflexivity|].
  rewrite not_elem_of_cons. intros [Hne Hr].
  destruct (String.eqb_spec ck k) as [Heq|_]; [congruence|].
  rewrite IH by exact Hr. reflexivity.
Qed.

Lemma upsert_present_keys (k num : string) (l : list (string * Contact)) :
  k ∈ l.*1 -> (upsert k num l).*1 = l.*1.
Proof.
  induction l as [|[ck cv] r IH]; simpl.
  - intros H. apply elem_of_nil in H. contradiction.
  - destruct (String.eqb_spec ck k) as [Heq|Hne]; [reflexivity|].
    rewrite elem_of_cons. intros [Hk|Hr]; [congruence|].
    cbn [fmap list_fmap fst]. f_equal. apply IH, Hr.
Qed.

Lemma upsert_keys (k num : string) (l : list (string * Contact)) :
  (upsert k num l).*1 = if decide (k ∈ l.*1) then l.*1 else l.*1 ++ [k].
Proof.
  destruct (decide (k ∈ l.*1)) as [Hin|Hout].
  - apply upsert_present_keys, Hin.
  - rewrite (upsert_fresh _ _ _ Hout), fmap_app. reflexivity.
Qed.

Lemma upsert_NoDup (k num : string) (l : list (string * Contact)) :
  NoDup l.*1 -> NoDup (upsert k num l).*1.
Proof.
  intros Hnd. rewrite upsert_keys.
  destruct (decide (k ∈ l.*1)) as [Hin|Hout]; [exact Hnd|].
  apply NoDup_app. split; [exact Hnd|]. split.
  - intros x Hx Hk. apply list_elem_of_singleton in Hk. congruence.
  - apply NoDup_singleton.
Qed.

Lemma upsert_elem_key (k num k' : string) (l : list (string * Contact)) :
  k' ∈ (upsert k num l).*1 <-> k' = k \/ k' ∈ l.*1.
Proof.
  rewrite upsert_keys.
  destruct (decide (k ∈ l.*1)) as [Hin|Hout].
  - split; [intros H; right; exact H|]. intros [->|H]; assumption.
  - rewrite elem_of_app, list_elem_of_singleton. tauto.
Qed.

(** Entries keep their position and key; only the number of the entry
    for [k] can change. *)
Lemma upsert_lookup (k num : string) (l : list (string * Contact)) (j : nat)
    (e : string * Contact) :
  l !! j = Some e ->
  exists c, upsert k num l !! j = Some (e.1, c) /\ name c = name e.2 /\
            (e.1 <> k -> c = e.2).
Proof.
  revert j. induction l as [|[ck cv] r IH]; intros j; [discriminate|].
  simpl. destruct (String.eqb_spec ck k) as [Heq|Hne].
  - destruct j as [|j]; simpl.
    + intros [= <-]. eexists. split; [reflexivity|]. simpl.
      split; [reflexivity|]. congruence.
    + intros Hj. exists e.2. rewrite Hj. destruct e; simpl. auto.
  - destruct j as [|j]; simpl.
    + intros [= <-]. exists cv. auto.
    + apply IH.
Qed.

Lemma first_match_upsert_other (k num k' : string)
    (l : list (string * Contact)) :
  k' <> k -> first_match k' (upsert k num l) = first_match k' l.
Proof.
  intros Hne. induction l as [|[ck cv] r IH]; simpl.
  - rewrite first_match_cons, first_match_nil.
    destruct (String.eqb_spec k k'); [congruence|reflexivity].
  - destruct (String.eqb_spec ck k) as [Heq|Hck].
    + rewrite !first_match_cons.
      destruct (String.eqb_spec ck k'); [congruence|reflexivity].
    + rewrite !first_match_cons. rewrite IH. reflexivity.
Qed.

Lemma upsert_names (k num : string) (l : list (string * Contact)) :
  Forall (fun e => name e.2 = e.1) l ->
  Forall (fun e => name e.2 = e.1) (upsert k num l).
Proof.
  induction 1 as [|[ck cv] r Hhd Htl IH]; simpl.
  - constructor; [reflexivity|constructor].
  - destruct (String.eqb ck k); constructor; auto.
Qed.

(** ** insert on the bucket array *)

Lemma nodes_inserted_chain (k num : string) (head : option Node) :
  nodes (inserted_chain k num head) = upsert k num (chain head).
Proof.
  destruct head as [n|]; simpl; [apply nodes_insert_loop | reflexivity].
Qed.

(** [insert] with the monad unfolded. *)
Lemma insert_unfold (k num : string) (t : HashTable) :
  insert k num t =
    if size t =? 0 then (Raise ZeroDivisionError, t)
    else
      match resolve_index (length (data t)) (hash_of (size t) k) with
      | Some j =>
          match data t !! j with
          | Some head =>
              (Ok tt,
               {| size := size t;
                  data := <[j := Some (inserted_chain k num head)]> (data t) |})
          | None => (Raise IndexError, t)
          end
      | None => (Raise IndexError, t)
      end.
Proof.
  unfold insert, bind. rewrite hash_function_run.
  destruct (size t =? 0); [reflexivity|].
  unfold getitem, setitem. unfold_M.
  destruct (resolve_index _ _) as [j|] eqn:Hres; [|reflexivity].
  destruct (data t !! j) as [[n|]|] eqn:Hj; try reflexivity;
    rewrite Hres; reflexivity.
Qed.

(** [search] with the monad unfolded. *)
Lemma search_unfold (k : string) (t : HashTable) :
  search k t =
    if size t =? 0 then (Raise ZeroDivisionError, t)
    else
      match resolve_index (length (data t)) (hash_of (size t) k) with
      | Some j =>
          match data t !! j with
          | Some head => (Ok (first_match k (chain head)), t)
          | None => (Raise IndexError, t)
          end
      | None => (Raise IndexError, t)
      end.
Proof.
  unfold search, bind. rewrite hash_function_run.
  destruct (size t =? 0); [reflexivity|].
  unfold getitem. unfold_M.
  destruct (resolve_index _ _) as [j|] eqn:Hres; [|reflexivity].
  destruct (data t !! j) as [[n|]|] eqn:Hj; try reflexivity.
  simpl. rewrite search_loop_first_match. reflexivity.
Qed.

(** Whatever the table, [insert] either raises and leaves it as it was,
    or replaces the chain of exactly one bucket, the one its index
    resolves to. *)
Lemma insert_cases (k num : string) (t : HashTable) :
  (exists e, insert k num t = (Raise e, t)) \/
  (exists j head,
      size t <> 0 /\
      resolve_index (length (data t)) (hash_of (size t) k) = Some j /\
      data t !! j = Some head /\
      insert k num t =
        (Ok tt, {| size := size t;
                   data := <[j := Some (inserted_chain k num head)]> (data t) |})).
Proof.
  rewrite insert_unfold.
  destruct (Z.eqb_spec (size t) 0) as [Hz|Hnz]; [left; eauto|].
  destruct (resolve_index _ _) as [j|] eqn:Hres; [|left; eauto].
  destruct (data t !! j) as [head|] eqn:Hj; [|left; eauto].
  right. exists j, head. auto.
Qed.

Lemma insert_size (k num : string) (t : HashTable) :
  size (insert k num t).2 = size t.
Proof.
  destruct (insert_cases k num t) as [[e ->]|(j & head & _ & _ & _ & ->)];
    reflexivity.
Qed.

Lemma insert_length (k num : string) (t : HashTable) :
  length (data (insert k num t).2) = length (data t).
Proof.
  destruct (insert_cases k num t) as [[e ->]|(j & head & _ & _ & _ & ->)];
    [reflexivity|].
  simpl. apply length_insert.
Qed.

Lemma slot_lt (t : HashTable) (k : string) :
  0 < size t -> sized t -> (slot t k < length (data t))%nat.
Proof.
  unfold sized, slot. intros Hsz Hlen.
  pose proof (hash_of_range (size t) k Hsz). lia.
Qed.

Lemma lookup_bucket (t : HashTable) (i : nat) (ref : option Node) :
  data t !! i = Some ref -> bucket t i = ref.
Proof. unfold bucket. intros ->. reflexivity. Qed.

Lemma bucket_lookup (t : HashTable) (i : nat) :
  (i < length (data t))%nat -> data t !! i = Some (bucket t i).
Proof.
  intros Hi. unfold bucket.
  destruct (lookup_lt_is_Some_2 (data t) i Hi) as [ref ->]. reflexivity.
Qed.

Lemma insert_run (k num : string) (t : HashTable) :
  0 < size t -> sized t ->
  insert k num t =
    (Ok tt,
     {| size := size t;
        data := <[slot t k :=
                    Some (inserted_chain k num (bucket t (slot t k)))]>
                  (data t) |}).
Proof.
  intros Hsz Hlen.
  pose proof (hash_of_range (size t) k Hsz) as Hh.
  pose proof (slot_lt t k Hsz Hlen) as Hlt.
  rewrite insert_unfold.
  destruct (Z.eqb_spec (size t) 0); [lia|].
  rewrite resolve_index_in_range by (unfold slot in Hlt; lia).
  fold (slot t k). rewrite (bucket_lookup _ _ Hlt). reflexivity.
Qed.

Lemma table_empty (t : HashTable) : size t <= 0 -> sized t -> data t = [].
Proof.
  unfold sized. intros Hsz Hlen. apply length_zero_iff_nil. lia.
Qed.

Lemma insert_nonpositive (k num : string) (t : HashTable) :
  size t <= 0 -> sized t ->
  insert k num t =
    (Raise (if size t =? 0 then ZeroDivisionError else IndexError), t).
Proof.
  intros Hsz Hlen. rewrite insert_unfold, (table_empty t Hsz Hlen).
  simpl. rewrite resolve_index_empty.
  destruct (size t =? 0); reflexivity.
Qed.

Lemma search_nonpositive (k : string) (t : HashTable) :
  size t <= 0 -> sized t ->
  search k t =
    (Raise (if size t =? 0 then ZeroDivisionError else IndexError), t).
Proof.
  intros Hsz Hlen. rewrite search_unfold, (table_empty t Hsz Hlen).
  simpl. rewrite resolve_index_empty.
  destruct (size t =? 0); reflexivity.
Qed.

Lemma search_run (k : string) (t : HashTable) :
  0 < size t -> sized t ->
  search k t = (Ok (first_match k (chain (bucket t (slot t k)))), t).
Proof.
  intros Hsz Hlen.
  pose proof (hash_of_range (size t) k Hsz) as Hh.
  pose proof (slot_lt t k Hsz Hlen) as Hlt.
  rewrite search_unfold.
  destruct (Z.eqb_spec (size t) 0); [lia|].
  rewrite resolve_index_in_range by (unfold slot in Hlt; lia).
  fold (slot t k). rewrite (bucket_lookup _ _ Hlt). reflexivity.
Qed.

Lemma bucket_insert_same (k num : string) (t : HashTable) :
  0 < size t -> sized t ->
  chain (bucket (insert k num t).2 (slot t k)) =
    upsert k num (chain (bucket t (slot t k))).
Proof.
  intros Hsz Hlen. rewrite (insert_run _ _ _ Hsz Hlen). simpl.
  unfold bucket at 1. simpl.
  rewrite list_lookup_insert_eq by (apply slot_lt; assumption).
  simpl. apply nodes_inserted_chain.
Qed.

Lemma bucket_insert_other (k num : string) (t : HashTable) (i : nat) :
  0 < size t -> sized t -> i <> slot t k ->
  bucket (insert k num t).2 i = bucket t i.
Proof.
  intros Hsz Hlen Hne. rewrite (insert_run _ _ _ Hsz Hlen).
  unfold bucket. simpl.
  rewrite list_lookup_insert_ne by congruence. reflexivity.
Qed.

(** ** The table invariant holds of every built table *)

Lemma bucket_init (sz : Z) (i : nat) :
  bucket {| size := sz; data := replicate (Z.to_nat sz) None |} i = None.
Proof.
  unfold bucket. simpl.
  destruct (replicate _ _ !! i) as [ref|] eqn:Hi; [|reflexivity].
  apply lookup_replicate in Hi. destruct Hi as [-> _]. reflexivity.
Qed.

Lemma init_inv (sz : Z) (t : HashTable) :
  HashTable_init sz = Ok t -> table_inv t.
Proof.
  intros Hinit. apply HashTable_init_inv in Hinit. subst t. split.
  - unfold sized. simpl. rewrite length_replicate. lia.
  - intros i k. rewrite bucket_init. intros Hk. apply elem_of_nil in Hk.
    contradiction.
  - intros i. rewrite bucket_init. apply NoDup_nil_2.
  - intros i. rewrite bucket_init. constructor.
Qed.

Lemma insert_sized (k num : string) (t : HashTable) :
  sized t -> sized (insert k num t).2.
Proof.
  unfold sized. rewrite insert_size, insert_length. auto.
Qed.

Lemma insert_inv (k num : string) (t : HashTable) :
  table_inv t -> table_inv (insert k num t).2.
Proof.
  intros [Hlen Hhash Huniq Hnames].
  destruct (Z.lt_ge_cases 0 (size t)) as [Hsz|Hsz].
  - pose proof (hash_of_range (size t) k Hsz) as Hh.
    split.
    + apply insert_sized, Hlen.
    + intros i k'. rewrite insert_size.
      destruct (decide (i = slot t k)) as [->|Hne].
      * unfold chain_keys. rewrite bucket_insert_same by assumption.
        rewrite upsert_elem_key. intros [->|Hold].
        -- unfold slot. lia.
        -- apply Hhash, Hold.
      * rewrite bucket_insert_other by assumption. apply Hhash.
    + intros i. destruct (decide (i = slot t k)) as [->|Hne].
      * unfold chain_keys. rewrite bucket_insert_same by assumption.
        apply upsert_NoDup, Huniq.
      * rewrite bucket_insert_other by assumption. apply Huniq.
    + intros i. destruct (decide (i = slot t k)) as [->|Hne].
      * rewrite bucket_insert_same by assumption.
        apply upsert_names, Hnames.
      * rewrite bucket_insert_other by assumption. apply Hnames.
  - rewrite insert_nonpositive by (assumption || lia).
    split; assumption.
Qed.

(** ** Keys in order of first insertion *)

Lemma first_seen_snoc (l : list string) (k : string) :
  first_seen (l ++ [k]) =
    if decide (k ∈ first_seen l) then first_seen l else first_seen l ++ [k].
Proof. unfold first_seen. rewrite fold_left_app. reflexivity. Qed.

Lemma elem_of_first_seen (l : list string) (k : string) :
  k ∈ first_seen l <-> k ∈ l.
Proof.
  induction l as [|x l IH] using rev_ind.
  - reflexivity.
  - rewrite first_seen_snoc, elem_of_app, list_elem_of_singleton.
    destruct (decide (x ∈ first_seen l)) as [Hin|Hout].
    + rewrite IH. split; [tauto|]. intros [H| ->]; [exact H|].
      apply IH, Hin.
    + rewrite elem_of_app, list_elem_of_singleton, IH. reflexivity.
Qed.

Lemma keys_hashed_to_snoc (t : HashTable) (i : nat) (ks : list string)
    (k : string) :
  keys_hashed_to t i (ks ++ [k]) =
    if decide (slot t k = i) then keys_hashed_to t i ks ++ [k]
    else keys_hashed_to t i ks.
Proof.
  unfold keys_hashed_to. rewrite filter_app.
  rewrite filter_cons, filter_nil.
  destruct (decide (slot t k = i)); [reflexivity|].
  apply app_nil_r.
Qed.

Lemma keys_hashed_to_size (t t' : HashTable) (i : nat) (ks : list string) :
  size t' = size t -> keys_hashed_to t' i ks = keys_hashed_to t i ks.
Proof.
  intros Hsz. unfold keys_hashed_to, slot. rewrite Hsz. reflexivity.
Qed.

(** What a program-built table looks like: the invariant, and every
    chain listing the keys sent to its bucket in first-insertion order. *)
Lemma built_shape (ks : list string) (t : HashTable) :
  built ks t ->
  table_inv t /\
  (0 < size t ->
   forall i, chain_keys (bucket t i) = first_seen (keys_hashed_to t i ks)).
Proof.
  induction 1 as [sz t Hinit|ks t k num Hb [Hinv Hkeys]|ks t k Hb IH
                 |ks t k Hb IH|ks t Hb IH].
  - split; [eapply init_inv, Hinit|].
    intros _ i. apply HashTable_init_inv in Hinit. subst t.
    rewrite bucket_init. reflexivity.
  - split; [apply insert_inv, Hinv|].
    rewrite insert_size. intros Hsz i.
    rewrite (keys_hashed_to_size t) by apply insert_size.
    rewrite keys_hashed_to_snoc.
    destruct (decide (slot t k = i)) as [<-|Hne].
    + unfold chain_keys.
      rewrite bucket_insert_same by (assumption || apply Hinv).
      rewrite upsert_keys, first_seen_snoc.
      fold (chain_keys (bucket t (slot t k))).
      rewrite (Hkeys Hsz). reflexivity.
    + rewrite bucket_insert_other by (try apply Hinv; auto).
      apply Hkeys, Hsz.
  - rewrite hash_function_state. exact IH.
  - rewrite search_state. exact IH.
  - rewrite print_table_state. exact IH.
Qed.

Lemma built_inv (ks : list string) (t : HashTable) :
  built ks t -> table_inv t.
Proof. intros Hb. apply (built_shape ks t Hb). Qed.

Lemma reachable_inv (t : HashTable) : reachable t -> table_inv t.
Proof. intros [ks Hb]. eapply built_inv, Hb. Qed.

(** ** Keys of the whole table *)

Lemma elem_of_concat {A : Type} (x : A) (ls : list (list A)) :
  x ∈ concat ls <-> exists l, l ∈ ls /\ x ∈ l.
Proof.
  rewrite list_elem_of_In, in_concat. split.
  - intros (l & Hl & Hx). exists l. rewrite !list_elem_of_In. auto.
  - intros (l & Hl & Hx). exists l. rewrite <- !list_elem_of_In. auto.
Qed.

Lemma NoDup_concat_by_index {A : Type} (f : A -> nat) (ls : list (list A)) :
  (forall i l x, ls !! i = Some l -> x ∈ l -> f x = i) ->
  (forall i l, ls !! i = Some l -> NoDup l) ->
  NoDup (concat ls).
Proof.
  revert f. induction ls as [|l ls IH]; intros f Hidx Hnd; simpl.
  - apply NoDup_nil_2.
  - apply NoDup_app. split; [apply (Hnd 0%nat), eq_refl|]. split.
    + intros x Hx Hrest. apply elem_of_concat in Hrest.
      destruct Hrest as (l' & Hl' & Hxl').
      apply list_elem_of_lookup in Hl'. destruct Hl' as [j Hj].
      pose proof (Hidx 0%nat l x eq_refl Hx) as H0.
      pose proof (Hidx (S j) l' x Hj Hxl') as HS. lia.
    + apply (IH (fun x => pred (f x))).
      * intros i l' x Hi Hx. rewrite (Hidx (S i) l' x Hi Hx). reflexivity.
      * intros i l' Hi. apply (Hnd (S i)), Hi.
Qed.

Lemma table_keys_NoDup (t : HashTable) : table_inv t -> NoDup (table_keys t).
Proof.
  intros [Hlen Hhash Huniq _]. unfold table_keys.
  apply (NoDup_concat_by_index (slot t)).
  - intros i l k Hi Hk. rewrite list_lookup_fmap in Hi.
    destruct (data t !! i) as [ref|] eqn:Href; [|discriminate].
    injection Hi as <-. rewrite <- (lookup_bucket _ _ _ Href) in Hk.
    unfold slot. rewrite (Hhash i k Hk). lia.
  - intros i l Hi. rewrite list_lookup_fmap in Hi.
    destruct (data t !! i) as [ref|] eqn:Href; [|discriminate].
    injection Hi as <-. rewrite <- (lookup_bucket _ _ _ Href). apply Huniq.
Qed.

Lemma elem_of_table_keys (t : HashTable) (k : string) :
  k ∈ table_keys t <-> exists i, k ∈ chain_keys (bucket t i).
Proof.
  unfold table_keys. rewrite elem_of_concat. split.
  - intros (l & Hl & Hk). apply list_elem_of_fmap in Hl.
    destruct Hl as (ref & -> & Href).
    apply list_elem_of_lookup in Href. destruct Href as [i Hi].
    exists i. rewrite (lookup_bucket _ _ _ Hi). exact Hk.
  - intros [i Hk]. unfold bucket in Hk.
    destruct (data t !! i) as [ref|] eqn:Hi; simpl in Hk.
    + exists (chain_keys ref). split; [|exact Hk].
      apply list_elem_of_fmap. exists ref. split; [reflexivity|].
      apply list_elem_of_lookup. eauto.
    + apply elem_of_nil in Hk. contradiction.
Qed.

Lemma filter_eq_absent (k : string) (l : list string) :
  k ∉ l -> filter (eq k) l = [].
Proof.
  induction l as [|x l IH]; [reflexivity|].
  rewrite not_elem_of_cons, filter_cons. intros [Hne Hl].
  rewrite decide_False by exact Hne. apply IH, Hl.
Qed.

Lemma count_NoDup (k : string) (l : list string) :
  NoDup l -> k ∈ l -> length (filter (eq k) l) = 1%nat.
Proof.
  induction 1 as [|x l Hx Hnd IH].
  - intros H. apply elem_of_nil in H. contradiction.
  - rewrite filter_cons. destruct (decide (k = x)) as [<-|Hne].
    + intros _. rewrite (filter_eq_absent _ _ Hx). reflexivity.
    + rewrite elem_of_cons. intros [Hk|Hk]; [congruence|]. apply IH, Hk.
Qed.

(** ** search after insert *)

Lemma first_match_upsert_named (k num : string)
    (l : list (string * Contact)) :
  Forall (fun e => name e.2 = e.1) l ->
  first_match k (upsert k num l) = Some (mkContact k num).
Proof.
  induction 1 as [|[ck cv] r Hhd Htl IH]; simpl.
  - rewrite first_match_cons, String.eqb_refl. reflexivity.
  - destruct (String.eqb_spec ck k) as [Heq|Hne]; rewrite first_match_cons.
    + simpl in Hhd. rewrite Heq in *. rewrite String.eqb_refl, Hhd.
      reflexivity.
    + destruct (String.eqb_spec ck k); [contradiction | exact IH].
Qed.

Lemma first_match_first (k : string) (l : list (string * Contact))
    (c : Contact) :
  first_match k l = Some c <->
  exists j, l !! j = Some (k, c) /\
            forall j' e', (j' < j)%nat -> l !! j' = Some e' -> e'.1 <> k.
Proof.
  unfold first_match. split.
  - destruct (list_find _ l) as [[j [k' c']]|] eqn:Hfind; [|discriminate].
    simpl. intros [= <-]. apply list_find_Some in Hfind.
    destruct Hfind as (Hj & Hk & Hbefore). simpl in Hk. subst k'.
    exists j. split; [exact Hj|]. intros j' e' Hlt He'. eapply Hbefore; eauto.
  - intros (j & Hj & Hbefore).
    assert (list_find (fun e => e.1 = k) l = Some (j, (k, c))) as ->.
    { apply list_find_Some. split; [exact Hj|]. split; [reflexivity|].
      intros j' e' He' Hlt. eapply Hbefore; eauto. }
    reflexivity.
Qed.

Lemma insert_ok (k num : string) (t : HashTable) :
  0 < size t -> sized t -> insert k num t = (Ok tt, (insert k num t).2).
Proof. intros Hsz Hlen. rewrite insert_run by assumption. reflexivity. Qed.

Lemma slot_insert (k num k' : string) (t : HashTable) :
  slot (insert k num t).2 k' = slot t k'.
Proof. unfold slot. rewrite insert_size. reflexivity. Qed.

Lemma search_insert_same (k num : string) (t : HashTable) :
  table_inv t -> 0 < size t ->
  search k (insert k num t).2 =
    (Ok (Some (mkContact k num)), (insert k num t).2).
Proof.
  intros Hinv Hsz. pose proof (inv_sized t Hinv) as Hlen.
  rewrite search_run
    by (rewrite ?insert_size; try apply insert_sized; assumption).
  rewrite slot_insert, bucket_insert_same by assumption.
  rewrite first_match_upsert_named by apply (inv_names t Hinv).
  reflexivity.
Qed.

Lemma search_insert_other (k num k' : string) (t : HashTable) :
  table_inv t -> 0 < size t -> k' <> k ->
  search k' (insert k num t).2 = ((search k' t).1, (insert k num t).2).
Proof.
  intros Hinv Hsz Hne. pose proof (inv_sized t Hinv) as Hlen.
  rewrite (search_run k' (insert k num t).2)
    by (rewrite ?insert_size; try apply insert_sized; assumption).
  rewrite (search_run k' t) by assumption.
  rewrite slot_insert. simpl. f_equal. f_equal.
  destruct (decide (slot t k' = slot t k)) as [Heq|Hslot].
  - rewrite Heq, bucket_insert_same by assumption.
    apply first_match_upsert_other, Hne.
  - rewrite bucket_insert_other by assumption. reflexivity.
Qed.

Lemma key_stored_by_insert (k num : string) (t : HashTable) :
  table_inv t -> 0 < size t -> k ∈ table_keys (insert k num t).2.
Proof.
  intros Hinv Hsz. apply elem_of_table_keys. exists (slot t k).
  unfold chain_keys.
  rewrite bucket_insert_same by (try apply Hinv; assumption).
  apply upsert_elem_key. left. reflexivity.
Qed.

Lemma names_are_keys (l : list (string * Contact)) :
  Forall (fun e => name e.2 = e.1) l -> name <$> l.*2 = l.*1.
Proof.
  induction 1 as [|[ck cv] r Hhd Htl IH]; [reflexivity|].
  simpl in *. rewrite Hhd. f_equal. exact IH.
Qed.

Lemma elem_of_keys_hashed_to (t : HashTable) (i : nat) (ks : list string)
    (k : string) :
  k ∈ first_seen (keys_hashed_to t i ks) -> k ∈ ks.
Proof.
  rewrite elem_of_first_seen. unfold keys_hashed_to.
  rewrite list_elem_of_filter. intros [_ Hk]. exact Hk.
Qed.

(** ** print_table on a well-sized table *)

Lemma render_line_chain (i : Z) (ref : option Node) :
  render_line i (chain ref).*2 =
    match ref with
    | None => ("Index " ++ str_int i ++ ": Empty")%string
    | Some n =>
        ("Index " ++ str_int i ++ ": " ++ strip (chain_loop n ""))%string
    end.
Proof.
  destruct ref as [n|]; [|reflexivity].
  unfold render_line, render_chain. simpl chain.
  rewrite chain_loop_fold. destruct n as [ck cv nx]. reflexivity.
Qed.

Lemma print_bucket_run (i : Z) (t : HashTable) :
  0 <= i < Z.of_nat (length (data t)) ->
  print_bucket i t =
    (Ok (render_line i (chain (bucket t (Z.to_nat i))).*2), t).
Proof.
  intros Hi. unfold print_bucket, bind.
  rewrite (getitem_in_range _ _ Hi), render_line_chain.
  destruct (bucket t (Z.to_nat i)); reflexivity.
Qed.

Lemma for_each_run {A : Type} (body : Z -> M A) (f : Z -> A)
    (indices : list Z) (t : HashTable) :
  (forall i, i ∈ indices -> body i t = (Ok (f i), t)) ->
  for_each body indices t = (Ok (f <$> indices), t).
Proof.
  induction indices as [|i rest IH]; intros Hbody; simpl; [reflexivity|].
  unfold bind. rewrite (Hbody i) by apply list_elem_of_here.
  rewrite IH; [reflexivity|].
  intros j Hj. apply Hbody, list_elem_of_further, Hj.
Qed.

Lemma elem_of_range (n i : Z) : i ∈ range n -> 0 <= i < n.
Proof.
  unfold range. intros Hi. apply list_elem_of_fmap in Hi.
  destruct Hi as (j & -> & Hj). apply elem_of_seq in Hj. lia.
Qed.

Lemma print_table_run (t : HashTable) :
  sized t ->
  print_table t =
    (Ok ((fun i => render_line i (chain (bucket t (Z.to_nat i))).*2)
           <$> range (size t)), t).
Proof.
  intros Hlen. unfold print_table, bind, get_size.
  apply for_each_run. intros i Hi. apply elem_of_range in Hi.
  apply print_bucket_run. unfold sized in Hlen. lia.
Qed.

(** ** The sample table is built by the program *)

Lemma fresh10_built : built [] fresh10.
Proof. exact (built_init 10 fresh10 eq_refl). Defined.

Lemma sample_built : built sample_keys sample.
Proof.
  exact (built_insert _ _ "Rebecca" "999-444-9999"
           (built_insert _ _ "May" "222-333-1111"
              (built_insert _ _ "Amy" "111-222-3333"
                 (built_insert _ _ "Rebecca" "111-555-0002"
                    (built_insert _ _ "John" "909-876-1234"
                       fresh10_built))))).
Defined.

Lemma sample_reachable : reachable sample.
Proof. exists sample_keys. exact sample_built. Defined.

Lemma fresh10_reachable : reachable fresh10.
Proof. exists []. exact fresh10_built. Defined.

(** ** Construction *)

(** C1, as the code has it: construction with a size [<= 0] raises no
    capacity error.  For every integer [sz] with
    [PY_SSIZE_T_MIN <= sz <= 0] the constructor returns a table that
    records [sz] as its size and has an empty bucket array; only below
    [PY_SSIZE_T_MIN] does it fail, with the [OverflowError] of the list
    repetition. *)
Theorem HashTable_init_nonpositive (sz : Z) :
  sz <= 0 ->
  (PY_SSIZE_T_MIN <= sz ->
   HashTable_init sz = Ok {| size := sz; data := [] |}) /\
  (sz < PY_SSIZE_T_MIN -> HashTable_init sz = Raise OverflowError).
Proof.
  intros Hsz. split.
  - intros Hmin. rewrite HashTable_init_ok by exact Hmin.
    replace (Z.to_nat sz) with 0%nat by lia. reflexivity.
  - apply HashTable_init_overflow.
Qed.

Lemma HashTable_init_nonpositive_witness :
  (-3 <= 0 /\ PY_SSIZE_T_MIN <= -3 /\
   HashTable_init (-3) = Ok {| size := -3; data := [] |}) /\
  (-18446744073709551616 <= 0 /\
   -18446744073709551616 < PY_SSIZE_T_MIN /\
   HashTable_init (-18446744073709551616) = Raise OverflowError).
Proof.
  split.
  - split; [lia|]. split; [unfold PY_SSIZE_T_MIN; lia|].
    apply (HashTable_init_nonpositive (-3)); [lia|].
    unfold PY_SSIZE_T_MIN; lia.
  - split; [lia|]. split; [unfold PY_SSIZE_T_MIN; lia|].
    apply (HashTable_init_nonpositive (-18446744073709551616)); [lia|].
    unfold PY_SSIZE_T_MIN; lia.
Defined.

(** C1, as stated (construction with a size [<= 0] raises), fails at
    size 0: the constructor returns a table. *)
Lemma HashTable_init_zero_not_raised :
  ~ (0 <= 0 -> raised (HashTable_init 0)).
Proof. intros H. exact (H (Z.le_refl 0)). Qed.

(** ** hash_function *)

(** C2: on a table of capacity [> 0], [hash_function key] returns the sum
    of the code points of [key] modulo the capacity, a value in
    [0, capacity); the result depends only on the key and the capacity,
    the table is left as it was, and the empty string hashes to 0. *)
Theorem hash_function_spec (t : HashTable) (k : string) :
  0 < size t ->
  hash_function k t = (Ok (code_point_sum k mod size t), t) /\
  0 <= code_point_sum k mod size t < size t /\
  (forall t', size t' = size t ->
              (hash_function k t').1 = (hash_function k t).1) /\
  hash_function "" t = (Ok 0, t).
Proof.
  intros Hsz. repeat split.
  - rewrite hash_function_ok by lia. rewrite hash_of_sum. reflexivity.
  - apply Z.mod_pos_bound, Hsz.
  - apply Z.mod_pos_bound, Hsz.
  - intros t' Hsz'. rewrite !hash_function_ok by lia.
    rewrite Hsz'. reflexivity.
  - rewrite hash_function_ok by lia. rewrite hash_of_sum. simpl.
    rewrite Z.mod_0_l by lia. reflexivity.
Qed.

Lemma hash_function_spec_witness :
  0 < size fresh10 /\
  hash_function "Amy" fresh10 = (Ok 5, fresh10) /\
  hash_function "" fresh10 = (Ok 0, fresh10).
Proof.
  destruct (hash_function_spec fresh10 "Amy") as (Hrun & _ & _ & Hempty).
  - reflexivity.
  - split; [reflexivity|]. split; [exact Hrun | exact Hempty].
Defined.

(** ** A fresh table, and tables of non-positive size *)



(** C9, as the code has it: for every integer [sz] with
    [PY_SSIZE_T_MIN <= sz <= 0] construction succeeds, with an empty
    bucket array; on that table every [insert] and every [search] raises
    ([ZeroDivisionError] from the modulo when [sz = 0], [IndexError] from
    the subscript when [sz < 0]) and leaves the table as it was, so the
    same holds for every later call. *)
Theorem nonpositive_size_fails_at_first_use (sz : Z) :
  PY_SSIZE_T_MIN <= sz <= 0 ->
  exists t,
    HashTable_init sz = Ok t /\
    data t = [] /\
    forall k num,
      let e := if sz =? 0 then ZeroDivisionError else IndexError in
      insert k num t = (Raise e, t) /\ search k t = (Raise e, t).
Proof.
  intros [Hmin Hsz].
  pose proof (HashTable_init_ok sz Hmin) as Hinit.
  eexists. split; [exact Hinit|].
  assert (sized {| size := sz; data := replicate (Z.to_nat sz) None |})
    as Hlen by (eapply inv_sized, init_inv, Hinit).
  split; [apply table_empty; assumption|].
  intros k num e. split.
  - apply insert_nonpositive; assumption.
  - apply search_nonpositive; assumption.
Qed.

Lemma nonpositive_size_fails_at_first_use_witness :
  (PY_SSIZE_T_MIN <= 0 <= 0 /\
   exists t, HashTable_init 0 = Ok t /\
             insert "John" "909-876-1234" t = (Raise ZeroDivisionError, t) /\
             search "John" t = (Raise ZeroDivisionError, t)) /\
  (PY_SSIZE_T_MIN <= -2 <= 0 /\
   exists t, HashTable_init (-2) = Ok t /\
             insert "John" "909-876-1234" t = (Raise IndexError, t) /\
             search "John" t = (Raise IndexError, t)).
Proof.
  split; (split; [unfold PY_SSIZE_T_MIN; lia|]).
  - destruct (nonpositive_size_fails_at_first_use 0) as (t & Hinit & _ & Hops);
      [unfold PY_SSIZE_T_MIN; lia|].
    exists t. split; [exact Hinit|]. apply Hops.
  - destruct (nonpositive_size_fails_at_first_use (-2))
      as (t & Hinit & _ & Hops); [unfold PY_SSIZE_T_MIN; lia|].
    exists t. split; [exact Hinit|]. apply Hops.
Defined.

(** C9, as stated (construction succeeds for every size [<= 0]), fails
    at size -2^63 - 1: the list repetition raises [OverflowError] and no
    table is constructed. *)
Lemma HashTable_init_overflow_not_constructed :
  ~ (-9223372036854775809 <= 0 ->
     exists t, HashTable_init (-9223372036854775809) = Ok t).
Proof.
  intros H. destruct H as [t Ht]; [lia|].
  rewrite HashTable_init_overflow in Ht by (unfold PY_SSIZE_T_MIN; lia).
  discriminate Ht.
Qed.

(** ** insert: frame *)

(** C10: on a table of capacity [> 0], [insert key number] changes neither
    the capacity nor the number of buckets, and every bucket other than
    the one at index [hash_function key] holds the same chain after the
    call as before. *)
Theorem insert_frame (t : HashTable) (k num : string) :
  0 < size t ->
  size (insert k num t).2 = size t /\
  length (data (insert k num t).2) = length (data t) /\
  forall index i,
    hash_function k t = (Ok index, t) -> Z.of_nat i <> index ->
    data (insert k num t).2 !! i = data t !! i.
Proof.
  intros Hsz. split; [apply insert_size|]. split; [apply insert_length|].
  intros index i Hhash Hne.
  rewrite hash_function_ok in Hhash by lia. injection Hhash as <-.
  pose proof (hash_of_range (size t) k Hsz) as Hh.
  destruct (insert_cases k num t) as [[e ->]|(j & head & _ & Hres & _ & ->)];
    [reflexivity|].
  simpl. apply resolve_index_nonneg in Hres; [|lia].
  apply list_lookup_insert_ne. lia.
Qed.

Lemma insert_frame_witness :
  0 < size sample /\
  size (insert "Chris" "555-000-1111" sample).2 = 10 /\
  forall i, Z.of_nat i <> 5 ->
            data (insert "Chris" "555-000-1111" sample).2 !! i =
              data sample !! i.
Proof.
  split; [reflexivity|].
  destruct (insert_frame sample "Chris" "555-000-1111") as (Hsz & _ & Hframe);
    [reflexivity|].
  split; [exact Hsz|].
  intros i Hi. apply (Hframe 5 i); [reflexivity | exact Hi].
Defined.

(** ** insert then search *)

(** C3: on a table of capacity [> 0] built by the program,
    [insert(k, v1)] followed by [insert(k, v2)] both return normally,
    the whole table then holds exactly one entry with key [k], and
    [search(k)] returns a contact whose name is [k] and whose number is
    [v2]. *)
Theorem insert_twice_updates (t : HashTable) (k v1 v2 : string) :
  reachable t -> 0 < size t ->
  exists t1 t2 c,
    insert k v1 t = (Ok tt, t1) /\
    insert k v2 t1 = (Ok tt, t2) /\
    count_key k t2 = 1%nat /\
    search k t2 = (Ok (Some c), t2) /\
    name c = k /\ number c = v2.
Proof.
  intros Hreach Hsz. pose proof (reachable_inv t Hreach) as Hinv.
  pose proof (insert_inv k v1 t Hinv) as Hinv1.
  assert (0 < size (insert k v1 t).2) as Hsz1 by (rewrite insert_size; lia).
  pose proof (insert_inv k v2 _ Hinv1) as Hinv2.
  exists (insert k v1 t).2, (insert k v2 (insert k v1 t).2).2,
    (mkContact k v2).
  split; [apply insert_ok; [assumption | apply Hinv]|].
  split; [apply insert_ok; [assumption | apply Hinv1]|].
  split; [|split; [apply search_insert_same; assumption | split; reflexivity]].
  apply count_NoDup.
  - apply table_keys_NoDup, Hinv2.
  - apply key_stored_by_insert; assumption.
Qed.

Lemma insert_twice_updates_witness :
  reachable sample /\ 0 < size sample /\
  exists t1 t2 c,
    insert "Rebecca" "111-555-0002" sample = (Ok tt, t1) /\
    insert "Rebecca" "999-444-9999" t1 = (Ok tt, t2) /\
    count_key "Rebecca" t2 = 1%nat /\
    search "Rebecca" t2 = (Ok (Some c), t2) /\
    name c = "Rebecca" /\ number c = "999-444-9999".
Proof.
  split; [exact sample_reachable|]. split; [reflexivity|].
  apply (insert_twice_updates sample "Rebecca" "111-555-0002" "999-444-9999");
    [exact sample_reachable | reflexivity].
Defined.

(** C7: on a table of capacity [> 0] built by the program, for distinct
    keys [k1], [k2] that [hash_function] sends to the same index,
    [insert(k1, v1)] then [insert(k2, v2)] both return normally, after
    which [search(k1)] returns the contact [k1: v1] and [search(k2)] the
    contact [k2: v2]. *)
Theorem collision_independence (t : HashTable) (k1 k2 v1 v2 : string) :
  reachable t -> 0 < size t -> k1 <> k2 ->
  (hash_function k1 t).1 = (hash_function k2 t).1 ->
  exists t1 t2,
    insert k1 v1 t = (Ok tt, t1) /\
    insert k2 v2 t1 = (Ok tt, t2) /\
    search k1 t2 = (Ok (Some (mkContact k1 v1)), t2) /\
    search k2 t2 = (Ok (Some (mkContact k2 v2)), t2).
Proof.
  intros Hreach Hsz Hne _. pose proof (reachable_inv t Hreach) as Hinv.
  pose proof (insert_inv k1 v1 t Hinv) as Hinv1.
  assert (0 < size (insert k1 v1 t).2) as Hsz1 by (rewrite insert_size; lia).
  exists (insert k1 v1 t).2, (insert k2 v2 (insert k1 v1 t).2).2.
  split; [apply insert_ok; [assumption | apply Hinv]|].
  split; [apply insert_ok; [assumption | apply Hinv1]|].
  split; [|apply search_insert_same; assumption].
  rewrite search_insert_other by assumption.
  rewrite search_insert_same by assumption. reflexivity.
Qed.

Lemma collision_independence_witness :
  reachable fresh10 /\ 0 < size fresh10 /\ "Amy" <> "May" /\
  (hash_function "Amy" fresh10).1 = Ok 5 /\
  (hash_function "May" fresh10).1 = Ok 5 /\
  exists t1 t2,
    insert "Amy" "111-222-3333" fresh10 = (Ok tt, t1) /\
    insert "May" "222-333-1111" t1 = (Ok tt, t2) /\
    search "Amy" t2 = (Ok (Some (mkContact "Amy" "111-222-3333")), t2) /\
    search "May" t2 = (Ok (Some (mkContact "May" "222-333-1111")), t2).
Proof.
  split; [exact fresh10_reachable|]. split; [reflexivity|].
  split; [discriminate|]. split; [reflexivity|]. split; [reflexivity|].
  apply (collision_independence fresh10 "Amy" "May");
    [exact fresh10_reachable | reflexivity | discriminate | reflexivity].
Defined.

(** ** The invariant on every table the program builds *)

(** C4: in every table obtained from a constructed table by any sequence
    of method calls, each key stored in the chain of bucket [i] is sent
    to [i] by [hash_function], no chain holds a key twice, and no key
    occurs twice in the whole table. *)
Theorem table_invariant_preserved (t : HashTable) :
  reachable t ->
  (forall i ref k,
      data t !! i = Some ref -> k ∈ chain_keys ref ->
      hash_function k t = (Ok (Z.of_nat i), t)) /\
  (forall i ref, data t !! i = Some ref -> NoDup (chain_keys ref)) /\
  NoDup (table_keys t).
Proof.
  intros Hreach. pose proof (reachable_inv t Hreach) as Hinv.
  split; [|split].
  - intros i ref k Hi Hk.
    pose proof (inv_sized t Hinv) as Hlen. unfold sized in Hlen.
    apply lookup_lt_Some in Hi as Hlt.
    rewrite hash_function_ok by lia.
    rewrite <- (lookup_bucket _ _ _ Hi) in Hk.
    rewrite (inv_hash t Hinv i k Hk). reflexivity.
  - intros i ref Hi. rewrite <- (lookup_bucket _ _ _ Hi).
    apply (inv_uniq t Hinv).
  - apply table_keys_NoDup, Hinv.
Qed.

Lemma table_invariant_preserved_witness :
  reachable sample /\
  hash_function "May" sample = (Ok 5, sample) /\
  NoDup (table_keys sample).
Proof.
  split; [exact sample_reachable|].
  destruct (table_invariant_preserved sample sample_reachable)
    as (Hhash & _ & Hnodup).
  split; [|exact Hnodup].
  apply (Hhash 5%nat sample_bucket5 "May").
  - vm_compute. reflexivity.
  - vm_compute. apply list_elem_of_further, list_elem_of_here.
Defined.

(** ** search *)

(** C6: on a table of capacity [> 0] built by the program, [search key]
    returns normally and leaves the table as it was.  With [index] the
    value of [hash_function key] and [head] the reference at
    [data[index]], the result is the contact of the first entry of the
    chain from [head] whose key is [key], and [None] exactly when the
    chain holds no such entry, in particular when the bucket is empty;
    a key that no [insert] call was given yields [None]. *)
Theorem search_spec (ks : list string) (t : HashTable) (k : string) :
  built ks t -> 0 < size t ->
  exists index head result,
    hash_function k t = (Ok index, t) /\
    getitem index t = (Ok head, t) /\
    search k t = (Ok result, t) /\
    (forall c,
        result = Some c <->
        exists j, chain head !! j = Some (k, c) /\
                  forall j' e', (j' < j)%nat ->
                                chain head !! j' = Some e' -> e'.1 <> k) /\
    (result = None <-> k ∉ chain_keys head) /\
    (head = None -> result = None) /\
    (k ∉ ks -> result = None).
Proof.
  intros Hb Hsz. destruct (built_shape ks t Hb) as [Hinv Hkeys].
  pose proof (inv_sized t Hinv) as Hlen.
  pose proof (hash_of_range (size t) k Hsz) as Hh.
  exists (hash_of (size t) k), (bucket t (slot t k)),
    (first_match k (chain (bucket t (slot t k)))).
  split; [apply hash_function_ok; lia|].
  split; [apply getitem_in_range; unfold sized in Hlen; lia|].
  split; [apply search_run; assumption|].
  split; [intros c; apply first_match_first|].
  split; [apply first_match_None|].
  split; [intros ->; reflexivity|].
  intros Hk. apply first_match_None. unfold chain_keys in Hkeys.
  rewrite (Hkeys Hsz). intros Hin. apply Hk.
  eapply elem_of_keys_hashed_to, Hin.
Qed.

Lemma search_spec_witness :
  built sample_keys sample /\ 0 < size sample /\
  search "John" sample =
    (Ok (Some (mkContact "John" "909-876-1234")), sample) /\
  ("Chris" ∉ sample_keys -> search "Chris" sample = (Ok None, sample)).
Proof.
  split; [exact sample_built|]. split; [reflexivity|].
  split; [vm_compute; reflexivity|].
  destruct (search_spec sample_keys sample "Chris" sample_built)
    as (index & head & result & _ & _ & Hsearch & _ & _ & _ & Hnever);
    [reflexivity|].
  intros Hk. rewrite Hsearch, (Hnever Hk). reflexivity.
Defined.

(** ** Order inside a bucket *)

(** C5: on a table of capacity [> 0] built by the program,
    - [insert] of a key the table does not hold appends the entry
      [(key, Contact(key, number))] after the last entry of the chain of
      its bucket;
    - [insert] keeps every entry in its bucket and at its position in
      the chain, with its key and its contact's name, and with its
      contact unchanged unless its key is the inserted one;
    - [print_table] prints, for each index, the contacts of the chain
      from head to tail, and their names are the keys that [insert] was
      given and that hash to the index, in the order they first came. *)
Theorem insertion_order_preserved (ks : list string) (t : HashTable) :
  built ks t -> 0 < size t ->
  (forall k num,
      k ∉ table_keys t ->
      chain (bucket (insert k num t).2 (slot t k)) =
        chain (bucket t (slot t k)) ++ [(k, mkContact k num)]) /\
  (forall k num i j e,
      chain (bucket t i) !! j = Some e ->
      exists c,
        chain (bucket (insert k num t).2 i) !! j = Some (e.1, c) /\
        name c = name e.2 /\ (e.1 <> k -> c = e.2)) /\
  print_table t =
    (Ok ((fun i => render_line i (chain (bucket t (Z.to_nat i))).*2)
           <$> range (size t)), t) /\
  (forall i,
      name <$> (chain (bucket t i)).*2 =
        first_seen (keys_hashed_to t i ks)).
Proof.
  intros Hb Hsz. destruct (built_shape ks t Hb) as [Hinv Hkeys].
  pose proof (inv_sized t Hinv) as Hlen.
  split; [|split; [|split]].
  - intros k num Hfresh. rewrite bucket_insert_same by assumption.
    apply upsert_fresh. intros Hin. apply Hfresh.
    apply elem_of_table_keys. exists (slot t k). exact Hin.
  - intros k num i j e He.
    destruct (decide (i = slot t k)) as [->|Hne].
    + rewrite bucket_insert_same by assumption.
      apply upsert_lookup, He.
    + rewrite bucket_insert_other by assumption.
      exists e.2. rewrite He. destruct e; auto.
  - apply print_table_run, Hlen.
  - intros i. rewrite names_are_keys by apply (inv_names t Hinv).
    apply (Hkeys Hsz).
Qed.

Lemma insertion_order_preserved_witness :
  built sample_keys sample /\ 0 < size sample /\
  (print_table sample).1 =
    Ok ["Index 0: Empty"; "Index 1: Empty"; "Index 2: Empty";
        "Index 3: Empty"; "Index 4: Empty";
        "Index 5: - Amy: 111-222-3333 - May: 222-333-1111";
        "Index 6: Empty"; "Index 7: - Rebecca: 999-444-9999";
        "Index 8: Empty"; "Index 9: - John: 909-876-1234"]%string /\
  name <$> (chain (bucket sample 5)).*2 = ["Amy"; "May"]%string.
Proof.
  split; [exact sample_built|]. split; [reflexivity|].
  destruct (insertion_order_preserved sample_keys sample sample_built)
    as (_ & _ & Hprint & Hnames); [reflexivity|].
  split; [rewrite Hprint; vm_compute; reflexivity|].
  rewrite (Hnames 5%nat). vm_compute. reflexivity.
Defined.

(** ** Further properties of hash_function *)

Lemma code_point_sum_list (k : string) :
  code_point_sum k = foldr (fun c acc => ord c + acc) 0 (list_ascii_of_string k).
Proof. induction k as [|c k IH]; simpl; [reflexivity | rewrite IH; reflexivity]. Qed.

Lemma foldr_ord_Permutation (l1 l2 : list ascii) :
  l1 ≡ₚ l2 ->
  foldr (fun c acc => ord c + acc) 0 l1 = foldr (fun c acc => ord c + acc) 0 l2.
Proof.
  induction 1 as [|c l1 l2 _ IH|c d l|l1 l2 l3 _ IH12 _ IH23]; simpl.
  - reflexivity.
  - rewrite IH. reflexivity.
  - lia.
  - rewrite IH12. exact IH23.
Qed.

(** X1: keys made of the same characters in a different order get the
    same outcome from [hash_function] on every table. *)
Theorem hash_function_anagram (t : HashTable) (k1 k2 : string) :
  list_ascii_of_string k1 ≡ₚ list_ascii_of_string k2 ->
  hash_function k1 t = hash_function k2 t.
Proof.
  intros Hperm. rewrite !hash_function_run, !hash_of_sum.
  rewrite !code_point_sum_list, (foldr_ord_Permutation _ _ Hperm).
  reflexivity.
Qed.

Lemma hash_function_anagram_witness :
  list_ascii_of_string "amy" ≡ₚ list_ascii_of_string "may" /\
  hash_function "amy" fresh10 = hash_function "may" fresh10.
Proof.
  assert (list_ascii_of_string "amy" ≡ₚ list_ascii_of_string "may") as Hperm
    by (simpl; apply perm_swap).
  split; [exact Hperm|]. apply (hash_function_anagram fresh10), Hperm.
Defined.

(** X2: on a table of size 0 [hash_function] raises
    [ZeroDivisionError]; on a table of negative size it returns normally,
    with a value in (size, 0].  Either way the table is unchanged. *)
Theorem hash_function_nonpositive_size (t : HashTable) (k : string) :
  size t <= 0 ->
  (hash_function k t).2 = t /\
  match (hash_function k t).1 with
  | Raise e => e = ZeroDivisionError /\ size t = 0
  | Ok h => size t < h <= 0
  end.
Proof.
  intros Hsz. rewrite hash_function_run.
  destruct (Z.eqb_spec (size t) 0) as [Hz|Hnz]; simpl; [auto|].
  split; [reflexivity|]. unfold hash_of. apply Z.mod_neg_bound. lia.
Qed.

Lemma hash_function_nonpositive_size_witness :
  (size {| size := 0; data := [] |} <= 0 /\
   (hash_function "John" {| size := 0; data := [] |}).1 =
     Raise ZeroDivisionError) /\
  (size {| size := -7; data := [] |} <= 0 /\
   (hash_function "Amy" {| size := -7; data := [] |}).1 = Ok (-6) /\
   -7 < -6 <= 0).
Proof.
  split.
  - split; [simpl; lia | reflexivity].
  - split; [simpl; lia|]. split; [reflexivity|].
    destruct (hash_function_nonpositive_size
                {| size := -7; data := [] |} "Amy") as [_ Hrange];
      [simpl; lia | exact Hrange].
Defined.

(** ** How insert calls compose *)

Lemma HashTable_eq (a b : HashTable) :
  size a = size b -> data a = data b -> a = b.
Proof. destruct a, b. simpl. intros -> ->. reflexivity. Qed.

Lemma search_pair (k : string) (t : HashTable) :
  search k t = ((search k t).1, t).
Proof.
  pose proof (search_state k t) as Hst.
  destruct (search k t) as [r t']. simpl in *. subst t'. reflexivity.
Qed.

Lemma insert_data (k num : string) (t : HashTable) :
  0 < size t -> sized t ->
  data (insert k num t).2 =
    <[slot t k := Some (inserted_chain k num (bucket t (slot t k)))]> (data t).
Proof. intros Hsz Hlen. rewrite insert_run by assumption. reflexivity. Qed.

Lemma insert_loop_twice (k v1 v2 : string) (n : Node) :
  insert_loop k v2 (mkContact k v2) (insert_loop k v1 (mkContact k v1) n) =
    insert_loop k v2 (mkContact k v2) n.
Proof.
  induction n as [ck cv|ck cv m IH] using Node_chain_ind; simpl.
  - destruct (String.eqb ck k) eqn:Heq; simpl; rewrite Heq; [reflexivity|].
    unfold Node_init. simpl. rewrite String.eqb_refl. reflexivity.
  - destruct (String.eqb ck k) eqn:Heq; simpl; rewrite Heq; [reflexivity|].
    rewrite IH. reflexivity.
Qed.

Lemma inserted_chain_twice (k v1 v2 : string) (head : option Node) :
  inserted_chain k v2 (Some (inserted_chain k v1 head)) =
    inserted_chain k v2 head.
Proof.
  destruct head as [n|]; simpl; [apply insert_loop_twice|].
  rewrite String.eqb_refl. reflexivity.
Qed.

(** X3: on a table of capacity [> 0] built by the program, [insert] of a
    key does not change what [search] returns for any other key. *)
Theorem search_unaffected_by_other_insert (t : HashTable)
    (k num k' : string) :
  reachable t -> 0 < size t -> k' <> k ->
  (search k' (insert k num t).2).1 = (search k' t).1.
Proof.
  intros Hreach Hsz Hne.
  rewrite search_insert_other by (try apply reachable_inv; assumption).
  reflexivity.
Qed.

Lemma search_unaffected_by_other_insert_witness :
  reachable sample /\ 0 < size sample /\ "Amy" <> "May" /\
  (search "Amy" (insert "May" "000-000-0000" sample).2).1 =
    Ok (Some (mkContact "Amy" "111-222-3333")).
Proof.
  split; [exact sample_reachable|]. split; [reflexivity|].
  split; [discriminate|].
  rewrite (search_unaffected_by_other_insert sample "May" "000-000-0000" "Amy");
    [vm_compute; reflexivity | exact sample_reachable | reflexivity
    | discriminate].
Defined.

(** X4: on every table, [insert(k, v2)] right after [insert(k, v1)] has
    the same outcome and leaves the same table as [insert(k, v2)] alone;
    in particular repeating an [insert] changes nothing. *)
Theorem insert_overwrites_previous (t : HashTable) (k v1 v2 : string) :
  insert k v2 (insert k v1 t).2 = insert k v2 t.
Proof.
  destruct (insert_cases k v1 t)
    as [[e He]|(j & head & Hnz & Hres & Hj & He)]; rewrite He; simpl;
    [reflexivity|].
  pose proof (lookup_lt_Some _ _ _ Hj) as Hlt.
  rewrite !insert_unfold. simpl.
  destruct (Z.eqb_spec (size t) 0) as [Hz|_]; [contradiction|].
  rewrite length_insert, Hres, Hj.
  rewrite list_lookup_insert_eq by exact Hlt.
  rewrite list_insert_insert_eq, inserted_chain_twice. reflexivity.
Qed.

(** X5: on a table of capacity [> 0] built by the program, two [insert]
    calls whose keys hash to different indices leave the same table in
    either order. *)
Theorem insert_commutes_across_buckets (t : HashTable)
    (k1 v1 k2 v2 : string) :
  reachable t -> 0 < size t ->
  (hash_function k1 t).1 <> (hash_function k2 t).1 ->
  (insert k2 v2 (insert k1 v1 t).2).2 = (insert k1 v1 (insert k2 v2 t).2).2.
Proof.
  intros Hreach Hsz Hhash.
  pose proof (inv_sized t (reachable_inv t Hreach)) as Hlen.
  rewrite !hash_function_ok in Hhash by lia. simpl in Hhash.
  pose proof (hash_of_range (size t) k1 Hsz) as Hh1.
  pose proof (hash_of_range (size t) k2 Hsz) as Hh2.
  assert (slot t k1 <> slot t k2) as Hslot.
  { unfold slot. intros Heq. apply Hhash. f_equal. lia. }
  apply HashTable_eq; [rewrite !insert_size; reflexivity|].
  rewrite (insert_data k2 v2 (insert k1 v1 t).2),
    (insert_data k1 v1 (insert k2 v2 t).2)
    by (rewrite ?insert_size; try apply insert_sized; assumption).
  rewrite !slot_insert.
  rewrite (bucket_insert_other k1 v1 t (slot t k2)) by auto.
  rewrite (bucket_insert_other k2 v2 t (slot t k1)) by auto.
  rewrite !insert_data by assumption.
  apply list_insert_insert_ne. auto.
Qed.

Lemma insert_commutes_across_buckets_witness :
  reachable fresh10 /\ 0 < size fresh10 /\
  (hash_function "John" fresh10).1 <> (hash_function "Amy" fresh10).1 /\
  (insert "Amy" "111-222-3333" (insert "John" "909-876-1234" fresh10).2).2 =
    (insert "John" "909-876-1234" (insert "Amy" "111-222-3333" fresh10).2).2.
Proof.
  split; [exact fresh10_reachable|]. split; [reflexivity|].
  split; [vm_compute; discriminate|].
  apply (insert_commutes_across_buckets fresh10);
    [exact fresh10_reachable | reflexivity | vm_compute; discriminate].
Defined.

(** ** A run of insert calls *)

Lemma insert_each_snoc (ops : list (string * string)) (op : string * string)
    (t : HashTable) :
  insert_each (ops ++ [op]) t = (insert op.1 op.2 (insert_each ops t)).2.
Proof. unfold insert_each. rewrite fold_left_app. reflexivity. Qed.

Lemma insert_each_size (ops : list (string * string)) (t : HashTable) :
  size (insert_each ops t) = size t.
Proof.
  induction ops as [|op ops IH] using rev_ind; [reflexivity|].
  rewrite insert_each_snoc, insert_size. exact IH.
Qed.

Lemma insert_each_inv (ops : list (string * string)) (t : HashTable) :
  table_inv t -> table_inv (insert_each ops t).
Proof.
  intros Hinv. induction ops as [|op ops IH] using rev_ind; [exact Hinv|].
  rewrite insert_each_snoc. apply insert_inv, IH.
Qed.

Lemma last_number_snoc (k : string) (ops : list (string * string))
    (op : string * string) :
  last_number k (ops ++ [op]) =
    if String.eqb op.1 k then Some op.2 else last_number k ops.
Proof. unfold last_number. rewrite fold_left_app. reflexivity. Qed.

(** X6: on a table of capacity [> 0] built by the program, after a run
    of [insert] calls [search k] returns the contact [k: v] for the
    number [v] of the last call of the run with key [k]; when the run
    has no call with key [k] it returns what it returned before the
    run. *)
Theorem search_after_inserts_last_wins (t : HashTable)
    (ops : list (string * string)) (k : string) :
  reachable t -> 0 < size t ->
  search k (insert_each ops t) =
    (match last_number k ops with
     | Some v => Ok (Some (mkContact k v))
     | None => (search k t).1
     end, insert_each ops t).
Proof.
  intros Hreach Hsz. pose proof (reachable_inv t Hreach) as Hinv.
  induction ops as [|[k' v] ops IH] using rev_ind.
  - apply search_pair.
  - rewrite insert_each_snoc, last_number_snoc. simpl.
    pose proof (insert_each_inv ops t Hinv) as Hinv'.
    assert (0 < size (insert_each ops t)) as Hsz'
      by (rewrite insert_each_size; exact Hsz).
    destruct (String.eqb_spec k' k) as [->|Hne].
    + apply search_insert_same; assumption.
    + rewrite search_insert_other by (try assumption; congruence).
      rewrite IH. reflexivity.
Qed.

Lemma search_after_inserts_last_wins_witness :
  reachable fresh10 /\ 0 < size fresh10 /\
  (search "Rebecca"
     (insert_each [("Rebecca", "111-555-0002"); ("Amy", "111-222-3333");
                   ("Rebecca", "999-444-9999")] fresh10)).1 =
    Ok (Some (mkContact "Rebecca" "999-444-9999")).
Proof.
  split; [exact fresh10_reachable|]. split; [reflexivity|].
  rewrite (search_after_inserts_last_wins fresh10);
    [reflexivity | exact fresh10_reachable | reflexivity].
Defined.

(** ** The keys a table holds *)

Lemma first_match_elem (k : string) (l : list (string * Contact))
    (c : Contact) :
  first_match k l = Some c -> (k, c) ∈ l.
Proof.
  intros Hfirst. apply first_match_first in Hfirst.
  destruct Hfirst as (j & Hj & _). eapply list_elem_of_lookup_2, Hj.
Qed.

Lemma concat_insert_app {A : Type} (L : list (list A)) (s : nat)
    (old extra : list A) :
  L !! s = Some old -> concat (<[s := old ++ extra]> L) ≡ₚ concat L ++ extra.
Proof.
  revert s. induction L as [|l L IH]; intros [|s]; simpl; try discriminate.
  - intros [= ->]. rewrite <- !app_assoc.
    apply Permutation_app_head, Permutation_app_comm.
  - intros Hs. rewrite (IH s Hs), app_assoc. reflexivity.
Qed.

Lemma elem_of_table_keys_slot (t : HashTable) (k : string) :
  0 < size t -> table_inv t ->
  k ∈ table_keys t <-> k ∈ chain_keys (bucket t (slot t k)).
Proof.
  intros Hsz Hinv. rewrite elem_of_table_keys. split; [|eauto].
  intros [i Hi]. pose proof (inv_hash t Hinv i k Hi) as Hh.
  replace (slot t k) with i by (unfold slot; lia). exact Hi.
Qed.

Lemma keys_lookup_slot (t : HashTable) (k : string) :
  0 < size t -> sized t ->
  (chain_keys <$> data t) !! slot t k = Some (chain_keys (bucket t (slot t k))).
Proof.
  intros Hsz Hlen. rewrite list_lookup_fmap.
  rewrite (bucket_lookup t (slot t k)) by (apply slot_lt; assumption).
  reflexivity.
Qed.

Lemma table_keys_insert (k num : string) (t : HashTable) :
  0 < size t -> table_inv t ->
  table_keys (insert k num t).2 =
    concat (<[slot t k := (upsert k num (chain (bucket t (slot t k)))).*1]>
              (chain_keys <$> data t)).
Proof.
  intros Hsz Hinv. pose proof (inv_sized t Hinv) as Hlen.
  unfold table_keys. rewrite insert_data by assumption.
  rewrite list_fmap_insert. unfold chain_keys at 1. simpl.
  rewrite nodes_inserted_chain. reflexivity.
Qed.

Lemma table_keys_insert_present (k num : string) (t : HashTable) :
  0 < size t -> table_inv t -> k ∈ table_keys t ->
  table_keys (insert k num t).2 = table_keys t.
Proof.
  intros Hsz Hinv Hin. rewrite table_keys_insert by assumption.
  apply elem_of_table_keys_slot in Hin; [|assumption..].
  rewrite upsert_present_keys by exact Hin.
  rewrite list_insert_id; [reflexivity|].
  apply keys_lookup_slot; [assumption | apply Hinv].
Qed.

Lemma table_keys_insert_absent (k num : string) (t : HashTable) :
  0 < size t -> table_inv t -> k ∉ table_keys t ->
  table_keys (insert k num t).2 ≡ₚ table_keys t ++ [k].
Proof.
  intros Hsz Hinv Hout. rewrite table_keys_insert by assumption.
  rewrite elem_of_table_keys_slot in Hout by assumption.
  rewrite upsert_fresh by exact Hout. rewrite fmap_app. simpl.
  apply concat_insert_app, keys_lookup_slot; [assumption | apply Hinv].
Qed.

(** X7: on a table of capacity [> 0] built by the program, [insert] of a
    key the table holds leaves the stored keys, bucket by bucket and in
    order, exactly as they were; [insert] of a key it does not hold adds
    that one key and nothing else. *)
Theorem insert_table_keys (t : HashTable) (k num : string) :
  reachable t -> 0 < size t ->
  (k ∈ table_keys t -> table_keys (insert k num t).2 = table_keys t) /\
  (k ∉ table_keys t -> table_keys (insert k num t).2 ≡ₚ table_keys t ++ [k]).
Proof.
  intros Hreach Hsz. pose proof (reachable_inv t Hreach) as Hinv.
  split; intros Hk.
  - apply table_keys_insert_present; assumption.
  - apply table_keys_insert_absent; assumption.
Qed.

Lemma insert_table_keys_witness :
  reachable sample /\ 0 < size sample /\
  table_keys (insert "Amy" "000-000-0000" sample).2 =
    ["Amy"; "May"; "Rebecca"; "John"]%string /\
  table_keys (insert "Chris" "555-000-1111" sample).2 ≡ₚ
    ["Amy"; "May"; "Rebecca"; "John"; "Chris"]%string.
Proof.
  split; [exact sample_reachable|]. split; [reflexivity|].
  destruct (insert_table_keys sample "Amy" "000-000-0000" sample_reachable)
    as [Hpresent _]; [reflexivity|].
  destruct (insert_table_keys sample "Chris" "555-000-1111" sample_reachable)
    as [_ Habsent]; [reflexivity|].
  split.
  - rewrite Hpresent; [vm_compute; reflexivity|].
    vm_compute. apply list_elem_of_here.
  - replace (["Amy"; "May"; "Rebecca"; "John"; "Chris"]%string)
      with (table_keys sample ++ ["Chris"%string])
      by (vm_compute; reflexivity).
    apply Habsent. vm_compute. intros Hin.
    repeat (apply elem_of_cons in Hin; destruct Hin as [Hin|Hin];
            [discriminate|]).
    apply elem_of_nil in Hin. exact Hin.
Defined.

Lemma table_keys_init (sz : Z) (t : HashTable) :
  HashTable_init sz = Ok t -> table_keys t = [].
Proof.
  intros Hinit. apply HashTable_init_inv in Hinit. subst t.
  apply elem_of_nil_inv. intros k Hk.
  apply elem_of_table_keys in Hk. destruct Hk as [i Hi].
  rewrite bucket_init in Hi. apply elem_of_nil in Hi. exact Hi.
Qed.

(** X8: a table of capacity [> 0] built by the program holds exactly the
    distinct keys its [insert] calls were given, each once. *)
Theorem table_holds_inserted_keys (ks : list string) (t : HashTable) :
  built ks t -> 0 < size t -> table_keys t ≡ₚ first_seen ks.
Proof.
  induction 1 as [sz t Hinit|ks t k num Hb IH|ks t k Hb IH
                 |ks t k Hb IH|ks t Hb IH].
  - intros _. rewrite (table_keys_init sz t Hinit). reflexivity.
  - rewrite insert_size. intros Hsz. specialize (IH Hsz).
    pose proof (built_inv ks t Hb) as Hinv.
    rewrite first_seen_snoc.
    destruct (decide (k ∈ first_seen ks)) as [Hin|Hout].
    + rewrite table_keys_insert_present; try assumption.
      rewrite IH. exact Hin.
    + rewrite table_keys_insert_absent; try assumption.
      * rewrite IH. reflexivity.
      * rewrite IH. exact Hout.
  - rewrite hash_function_state. exact IH.
  - rewrite search_state. exact IH.
  - rewrite print_table_state. exact IH.
Qed.

Lemma table_holds_inserted_keys_witness :
  built sample_keys sample /\ 0 < size sample /\
  table_keys sample ≡ₚ ["John"; "Rebecca"; "Amy"; "May"]%string.
Proof.
  split; [exact sample_built|]. split; [reflexivity|].
  replace (["John"; "Rebecca"; "Amy"; "May"]%string)
    with (first_seen sample_keys) by (vm_compute; reflexivity).
  apply (table_holds_inserted_keys sample_keys sample sample_built).
  reflexivity.
Defined.

(** X9: on a table of capacity [> 0] built by the program, [search] of
    any key that an [insert] call was given returns a contact, and that
    contact's name is the key. *)
Theorem inserted_key_is_found (ks : list string) (t : HashTable)
    (k : string) :
  built ks t -> 0 < size t -> k ∈ ks ->
  exists c, search k t = (Ok (Some c), t) /\ name c = k.
Proof.
  intros Hb Hsz Hk. destruct (built_shape ks t Hb) as [Hinv Hkeys].
  rewrite search_run by (try apply Hinv; assumption).
  destruct (first_match k (chain (bucket t (slot t k)))) as [c|] eqn:Hfirst.
  - exists c. split; [reflexivity|].
    apply first_match_elem in Hfirst.
    pose proof (inv_names t Hinv (slot t k)) as Hnames.
    rewrite Forall_forall in Hnames. apply (Hnames _ Hfirst).
  - exfalso. apply first_match_None in Hfirst. apply Hfirst.
    unfold chain_keys in Hkeys. rewrite (Hkeys Hsz (slot t k)).
    apply elem_of_first_seen, list_elem_of_filter. auto.
Qed.

Lemma inserted_key_is_found_witness :
  built sample_keys sample /\ 0 < size sample /\ "May" ∈ sample_keys /\
  exists c, search "May" sample = (Ok (Some c), sample) /\ name c = "May".
Proof.
  split; [exact sample_built|]. split; [reflexivity|].
  assert ("May" ∈ sample_keys) as Hin
    by (unfold sample_keys; do 3 apply list_elem_of_further;
        apply list_elem_of_here).
  split; [exact Hin|].
  apply (inserted_key_is_found sample_keys sample "May" sample_built);
    [reflexivity | exact Hin].
Defined.

(** ** print_table and the bucket array on every built table *)

Lemma length_range (n : Z) : Z.of_nat (length (range n)) = Z.max 0 n.
Proof. unfold range. rewrite length_fmap, length_seq. lia. Qed.

(** X10: on every table built by the program [print_table] returns
    normally and leaves the table as it was; it prints one line per
    bucket, so nothing at all when the size is zero or negative. *)
Theorem print_table_never_raises (t : HashTable) :
  reachable t ->
  exists lines,
    print_table t = (Ok lines, t) /\
    Z.of_nat (length lines) = Z.max 0 (size t) /\
    length lines = length (data t).
Proof.
  intros Hreach. pose proof (inv_sized t (reachable_inv t Hreach)) as Hlen.
  eexists. split; [apply print_table_run, Hlen|].
  rewrite length_fmap. unfold sized in Hlen.
  pose proof (length_range (size t)). lia.
Qed.

Lemma print_table_never_raises_witness :
  reachable sample /\
  exists lines, print_table sample = (Ok lines, sample) /\
                length lines = 10%nat.
Proof.
  split; [exact sample_reachable|].
  destruct (print_table_never_raises sample sample_reachable)
    as (lines & Hrun & _ & Hlen).
  exists lines. split; [exact Hrun|]. rewrite Hlen. vm_compute. reflexivity.
Defined.

(** X11: after the call [HashTable(sz)] and any sequence of method
    calls, the size of the table is still [sz] and its bucket array
    still has the length it was constructed with, [sz] slots for a
    positive [sz] and none otherwise: the table is never resized. *)
Theorem bucket_array_never_resized (sz : Z) (t : HashTable) :
  made_with sz t -> size t = sz /\ length (data t) = Z.to_nat sz.
Proof.
  induction 1 as [t Hinit|t k num Hm IH|t k Hm IH|t k Hm IH|t Hm IH].
  - apply HashTable_init_inv in Hinit. subst t. simpl.
    split; [reflexivity | apply length_replicate].
  - rewrite insert_size, insert_length. exact IH.
  - rewrite hash_function_state. exact IH.
  - rewrite search_state. exact IH.
  - rewrite print_table_state. exact IH.
Qed.

Lemma sample_made_with : made_with 10 sample.
Proof.
  exact (made_insert 10 _ "Rebecca" "999-444-9999"
           (made_insert 10 _ "May" "222-333-1111"
              (made_insert 10 _ "Amy" "111-222-3333"
                 (made_insert 10 _ "Rebecca" "111-555-0002"
                    (made_insert 10 _ "John" "909-876-1234"
                       (made_init 10 fresh10 eq_refl)))))).
Defined.

Lemma bucket_array_never_resized_witness :
  made_with 10 sample /\ size sample = 10 /\ length (data sample) = 10%nat.
Proof.
  split; [exact sample_made_with|].
  apply (bucket_array_never_resized 10 sample sample_made_with).
Defined.

(** ** The text of a rendered chain *)

Lemma app_String (x : ascii) (a b : string) :
  (String x a ++ b)%string = String x (a ++ b).
Proof. reflexivity. Qed.

Lemma app_empty (b : string) : (EmptyString ++ b)%string = b.
Proof. reflexivity. Qed.

Lemma string_app_assoc (a b c : string) :
  ((a ++ b) ++ c)%string = (a ++ (b ++ c))%string.
Proof.
  induction a as [|x a IH]; [reflexivity|].
  rewrite !app_String, IH. reflexivity.
Qed.

Lemma string_app_empty_r (a : string) : (a ++ EmptyString)%string = a.
Proof.
  induction a as [|x a IH]; [reflexivity|].
  rewrite app_String, IH. reflexivity.
Qed.

Lemma string_app_nonempty (a b : string) :
  b <> EmptyString -> (a ++ b)%string <> EmptyString.
Proof. destruct a; [auto | rewrite app_String; discriminate]. Qed.

Lemma rstrip_app_blank (a b : string) :
  rstrip b = EmptyString -> rstrip (a ++ b) = rstrip a.
Proof.
  intros Hb. induction a as [|x a IH]; [exact Hb|].
  rewrite app_String. cbn [rstrip]. rewrite IH. reflexivity.
Qed.

Lemma rstrip_app_kept (a b : string) :
  rstrip b <> EmptyString -> rstrip (a ++ b) = (a ++ rstrip b)%string.
Proof.
  intros Hb. induction a as [|x a IH]; [reflexivity|].
  rewrite !app_String. cbn [rstrip]. rewrite IH.
  pose proof (string_app_nonempty a _ Hb) as Hne.
  destruct (a ++ rstrip b)%string; [contradiction | reflexivity].
Qed.

Lemma tidy_app (a b : string) : tidy b -> tidy (a ++ b).
Proof.
  intros [Hne Hb]. split; [apply string_app_nonempty, Hne|].
  rewrite rstrip_app_kept by (rewrite Hb; exact Hne).
  rewrite Hb. reflexivity.
Qed.

Lemma tidy_entry_text (c : Contact) : tidy (number c) -> tidy (entry_text c).
Proof.
  intros Hc. unfold entry_text, Contact_str.
  repeat apply tidy_app. exact Hc.
Qed.

Lemma join_cons (sep x : string) (l : list string) :
  l <> [] -> join sep (x :: l) = (x ++ sep ++ join sep l)%string.
Proof. destruct l; [contradiction | reflexivity]. Qed.

Lemma entries_snoc_cons (c0 : Contact) (cs : list Contact) (c : Contact) :
  entry_text <$> ((c0 :: cs) ++ [c]) =
    entry_text c0 :: (entry_text <$> (cs ++ [c])).
Proof. reflexivity. Qed.

Lemma entries_nonempty (cs : list Contact) (c : Contact) :
  entry_text <$> (cs ++ [c]) <> [].
Proof. destruct cs; discriminate. Qed.

Lemma tidy_join (cs : list Contact) (c : Contact) :
  tidy (number c) -> tidy (join " " (entry_text <$> (cs ++ [c]))).
Proof.
  intros Hc. induction cs as [|c0 cs IH].
  - apply tidy_entry_text, Hc.
  - rewrite entries_snoc_cons, join_cons by apply entries_nonempty.
    repeat apply tidy_app. exact IH.
Qed.

Lemma chain_text_acc (cs : list Contact) (acc : string) :
  fold_left (fun chain c => chain ++ "- " ++ Contact_str c ++ " ")%string
    cs acc =
  (acc ++ fold_left (fun chain c => chain ++ "- " ++ Contact_str c ++ " ")
            cs EmptyString)%string.
Proof.
  revert acc. induction cs as [|c0 cs IH]; intros acc; cbn [fold_left].
  - symmetry. apply string_app_empty_r.
  - rewrite (IH (acc ++ _)%string), (IH (EmptyString ++ _)%string).
    rewrite app_empty. apply string_app_assoc.
Qed.

Lemma chain_text_join (cs : list Contact) (c : Contact) :
  fold_left (fun chain c' => chain ++ "- " ++ Contact_str c' ++ " ")%string
    (cs ++ [c]) EmptyString =
  String.append (join " " (entry_text <$> (cs ++ [c]))) " ".
Proof.
  induction cs as [|c0 cs IH].
  - cbn [app fold_left fmap list_fmap join]. unfold entry_text.
    rewrite app_empty, !string_app_assoc. reflexivity.
  - rewrite entries_snoc_cons, join_cons by apply entries_nonempty.
    cbn [app fold_left]. rewrite chain_text_acc, IH, app_empty.
    unfold entry_text. rewrite !string_app_assoc. reflexivity.
Qed.

Lemma join_entries_dash (cs : list Contact) (c : Contact) :
  exists s, join " " (entry_text <$> (cs ++ [c])) = String "-" s.
Proof.
  destruct cs as [|c0 cs].
  - eexists. reflexivity.
  - rewrite entries_snoc_cons, join_cons by apply entries_nonempty.
    eexists. reflexivity.
Qed.

Lemma render_chain_tidy (cs : list Contact) (c : Contact) :
  tidy (number c) ->
  render_chain (cs ++ [c]) = join " " (entry_text <$> (cs ++ [c])).
Proof.
  intros Htidy. unfold render_chain, strip. rewrite chain_text_join.
  destruct (join_entries_dash cs c) as [s Hs].
  assert (lstrip (String.append (join " " (entry_text <$> cs ++ [c])) " ") =
            String.append (join " " (entry_text <$> cs ++ [c])) " ") as ->
    by (rewrite Hs; reflexivity).
  rewrite rstrip_app_blank by reflexivity.
  apply (tidy_join cs c), Htidy.
Qed.

(** ** Empty lines of print_table *)

Lemma range_lookup (n : Z) (j : nat) :
  (j < Z.to_nat n)%nat -> range n !! j = Some (Z.of_nat j).
Proof.
  intros Hj. unfold range. rewrite list_lookup_fmap.
  rewrite lookup_seq_lt by exact Hj. reflexivity.
Qed.

Lemma rstrip_dash (s : string) : exists r, rstrip (String "-" s) = String "-" r.
Proof. cbn [rstrip]. destruct (rstrip s); eexists; reflexivity. Qed.

Lemma render_chain_dash (c : Contact) (cs : list Contact) :
  exists r, render_chain (c :: cs) = String "-" r.
Proof.
  unfold render_chain, strip. cbn [fold_left].
  rewrite chain_text_acc, app_empty. apply rstrip_dash.
Qed.

Lemma render_line_empty (i : Z) (cs : list Contact) :
  render_line i cs = ("Index " ++ str_int i ++ ": Empty")%string <-> cs = [].
Proof.
  split; [|intros ->; reflexivity].
  destruct cs as [|c cs]; [reflexivity|]. unfold render_line. intros Heq.
  apply (inj (String.append "Index ")) in Heq.
  apply (inj (String.append (str_int i))) in Heq.
  apply (inj (String.append ": ")) in Heq.
  destruct (render_chain_dash c cs) as [r Hr]. rewrite Hr in Heq.
  discriminate.
Qed.

Lemma first_seen_nil (l : list string) : first_seen l = [] <-> l = [].
Proof.
  split; [|intros ->; reflexivity].
  intros Hnil. apply elem_of_nil_inv. intros k Hk.
  apply elem_of_first_seen in Hk. rewrite Hnil in Hk.
  apply elem_of_nil in Hk. exact Hk.
Qed.

Lemma contacts_nil_keys (l : list (string * Contact)) :
  l.*2 = [] <-> l.*1 = [].
Proof. destruct l; split; intros H; try reflexivity; discriminate. Qed.

(** X13: on a table of capacity [> 0] built by the program, the line
    [print_table] prints for index [i] is ["Index i: Empty"] exactly when
    no [insert] call was given a key that hashes to [i]. *)
Theorem print_table_empty_line (ks : list string) (t : HashTable) (i : Z) :
  built ks t -> 0 <= i < size t ->
  exists lines line,
    print_table t = (Ok lines, t) /\
    lines !! Z.to_nat i = Some line /\
    (line = ("Index " ++ str_int i ++ ": Empty")%string <->
     forall k, k ∈ ks -> (hash_function k t).1 <> Ok i).
Proof.
  intros Hb Hi. destruct (built_shape ks t Hb) as [Hinv Hkeys].
  assert (0 < size t) as Hsz by lia.
  do 2 eexists. split; [apply print_table_run, Hinv|].
  split.
  - rewrite list_lookup_fmap, range_lookup by lia. simpl.
    rewrite Z2Nat.id by lia. reflexivity.
  - rewrite render_line_empty, contacts_nil_keys.
    fold (chain_keys (bucket t (Z.to_nat i))).
    rewrite (Hkeys Hsz), first_seen_nil. unfold keys_hashed_to. split.
    + intros Hnil k Hk Hhash. rewrite hash_function_ok in Hhash by lia.
      injection Hhash as Hhash.
      refine (filter_nil_not_elem_of _ ks k Hnil _ Hk).
      unfold slot. rewrite Hhash. reflexivity.
    + intros Hnone. apply elem_of_nil_inv. intros k Hk.
      apply list_elem_of_filter in Hk. destruct Hk as [Hslot Hk].
      apply (Hnone k Hk). rewrite hash_function_ok by lia. simpl. f_equal.
      pose proof (hash_of_range (size t) k Hsz). unfold slot in Hslot. lia.
Qed.

Lemma print_table_empty_line_witness :
  built sample_keys sample /\ 0 <= 6 < size sample /\
  exists lines,
    print_table sample = (Ok lines, sample) /\
    lines !! 6%nat = Some "Index 6: Empty"%string.
Proof.
  assert (size sample = 10) as Hsz by (vm_compute; reflexivity).
  assert (0 <= 6 < size sample) as Hi by (rewrite Hsz; lia).
  split; [exact sample_built|]. split; [exact Hi|].
  destruct (print_table_empty_line sample_keys sample 6 sample_built Hi)
    as (lines & line & Hrun & Hline & Hempty).
  exists lines. split; [exact Hrun|].
  change (Z.to_nat 6) with 6%nat in Hline. rewrite Hline. f_equal.
  apply Hempty. intros k Hk. unfold sample_keys in Hk.
  repeat (apply elem_of_cons in Hk; destruct Hk as [->|Hk];
          [vm_compute; discriminate|]).
  apply elem_of_nil in Hk. contradiction.
Defined.

(** ** The line of a non-empty bucket *)

Lemma render_line_tidy (i : Z) (cs : list Contact) (c : Contact) :
  tidy (number c) -> render_line i (cs ++ [c]) = chain_line i (cs ++ [c]).
Proof.
  intros Htidy. unfold render_line, chain_line.
  rewrite <- (render_chain_tidy cs c Htidy).
  destruct cs; reflexivity.
Qed.

(** X12: on a table of capacity [> 0] built by the program, when the
    chain of bucket [i] holds the contacts [cs ++ [c]] and the number of
    the last one, [c], is not empty and does not end in whitespace, the
    line [print_table] prints for index [i] is ["Index i: "] followed by
    the entries ["- name: number"], head to tail, separated by single
    spaces. *)
Theorem print_table_chain_line (t : HashTable) (i : Z)
    (cs : list Contact) (c : Contact) :
  reachable t -> 0 <= i < size t ->
  (chain (bucket t (Z.to_nat i))).*2 = cs ++ [c] ->
  number c <> EmptyString -> rstrip (number c) = number c ->
  exists lines,
    print_table t = (Ok lines, t) /\
    lines !! Z.to_nat i =
      Some ("Index " ++ str_int i ++ ": " ++
            join " " ((fun c' => "- " ++ Contact_str c') <$> (cs ++ [c])%list))%string.
Proof.
  intros Hreach Hi Hchain Hne Hstrip.
  pose proof (inv_sized t (reachable_inv t Hreach)) as Hlen.
  eexists. split; [apply print_table_run, Hlen|].
  rewrite list_lookup_fmap, range_lookup by lia. simpl.
  rewrite Z2Nat.id by lia. rewrite Hchain.
  rewrite render_line_tidy by (split; assumption). reflexivity.
Qed.

Lemma print_table_chain_line_witness :
  reachable sample /\ 0 <= 5 < size sample /\
  exists lines,
    print_table sample = (Ok lines, sample) /\
    lines !! 5%nat =
      Some "Index 5: - Amy: 111-222-3333 - May: 222-333-1111"%string.
Proof.
  assert (size sample = 10) as Hsz by (vm_compute; reflexivity).
  assert (0 <= 5 < size sample) as Hi by (rewrite Hsz; lia).
  split; [exact sample_reachable|]. split; [exact Hi|].
  apply (print_table_chain_line sample 5
           [mkContact "Amy" "111-222-3333"]
           (mkContact "May" "222-333-1111") sample_reachable Hi).
  - vm_compute. reflexivity.
  - discriminate.
  - vm_compute. reflexivity.
Defined.
